(** * dromos-authkit: token validation, key cache and authorization checks

    A shallow embedding of the Go package [authkit] (auth.go, claims.go,
    tenant.go, the role middleware and the JWKS cache) together with the
    properties of its specification.

    Go maps are modelled as stdpp [gmap]s, a nil map or nil pointer as
    [None], durations and instants as [Z] nanoseconds, and the effects of
    the cache (clock readings, HTTP GETs, mutation of the cache fields) as
    a state monad over a [World]. *)

From Stdlib Require Import ZArith String Ascii List Bool Lia.
From Stdlib.Strings Require Byte.
From stdpp Require Import base option gmap strings list fin_maps.

Set Warnings "-register-all,-clear-no-such-hyp".
Local Open Scope string_scope.
Local Open Scope Z_scope.

(** ** Dynamically typed values ([interface{}] as produced by encoding/json) *)

(** Numbers are kept as integers (token timestamps are NumericDate seconds). *)
Inductive JSON : Type :=
  | JNull
  | JBool (b : bool)
  | JNumber (n : Z)
  | JString (s : string)
  | JArray (l : list JSON)
  | JObject (m : gmap string JSON).

(** ** claims.go *)

Definition claimsKey : string := "dromos_auth_claims".

(** The struct lives in its own name space (Go: [models.Claims], aliased as
    [authkit.Claims]) so that the accessor functions [OrgID], [Email], ...
    keep their names. [Roles] is a Go map value that may be nil. *)
Module models.
Record Claims : Type := mkClaims {
    Sub : string;
    Email : string;
    OrgID : string;
    OrgDomain : string;
    Roles : option (gmap string JSON)
  }.
End models.
Abbreviation Claims := models.Claims.

(** What a handler can find under a key of the request-scoped store:
    a (possibly nil) [*Claims] or a value of some other dynamic type. *)
Inductive CtxValue : Type :=
  | VClaims (p : option Claims)
  | VOther (v : JSON).

(** The part of [gin.Context] the package reads and writes. *)
Record Context : Type := mkContext {
  FullPath : string;
  Header : gmap string (list string);
  QueryValues : gmap string (list string);
  Keys : gmap string CtxValue
}.

(** What a middleware does with a request: hand it on ([c.Next()]) with the
    context as it left it, or [c.AbortWithStatusJSON(status, gin.H{"error": msg})]. *)
Inductive Outcome : Type :=
  | Next (c : Context)
  | AbortWithStatusJSON (status : Z) (error : string).

Definition StatusUnauthorized : Z := 401.
Definition StatusForbidden : Z := 403.
Definition StatusOK : Z := 200.

Definition SetClaims (c : Context) (claims : option Claims) : Context :=
  {| FullPath := FullPath c; Header := Header c; QueryValues := QueryValues c;
     Keys := <[claimsKey := VClaims claims]> (Keys c) |}.

Definition GetClaims (c : Context) : option Claims :=
  match Keys c !! claimsKey with
  | None => None
  | Some (VClaims claims) => claims
  | Some (VOther _) => None
  end.

Definition UserID (c : Context) : string :=
  match GetClaims c with Some cl => models.Sub cl | None => "" end.

Definition OrgID (c : Context) : string :=
  match GetClaims c with Some cl => models.OrgID cl | None => "" end.

Definition OrgDomain (c : Context) : string :=
  match GetClaims c with Some cl => models.OrgDomain cl | None => "" end.

Definition Email (c : Context) : string :=
  match GetClaims c with Some cl => models.Email cl | None => "" end.

Definition HasRole (c : Context) (role : string) : bool :=
  match GetClaims c with
  | None => false
  | Some cl =>
      match models.Roles cl with
      | None => false
      | Some roles =>
          match roles !! role with Some _ => true | None => false end
      end
  end.

Fixpoint HasAnyRole (c : Context) (roles : list string) : bool :=
  match roles with
  | [] => false
  | role :: rest => if HasRole c role then true else HasAnyRole c rest
  end.

(** ** tenant.go *)

Definition RequireTenant (c : Context) : Outcome :=
  let orgID := OrgID c in
  if String.eqb orgID "" then
    AbortWithStatusJSON StatusForbidden
      "no organization context — user must belong to an organization"
  else Next c.

(** ** Role middleware *)

(** [strings.Join]. *)
Fixpoint Join (elems : list string) (sep : string) : string :=
  match elems with
  | [] => ""
  | [x] => x
  | x :: rest => x ++ sep ++ Join rest sep
  end.

Definition RequireRole (roles : list string) (c : Context) : Outcome :=
  if HasAnyRole c roles then Next c
  else AbortWithStatusJSON StatusForbidden
         ("insufficient permissions — requires one of: " ++ Join roles ", ").

(** ** config.go *)

Record Config : Type := mkConfig {
  IssuerURL : string;
  Audience : string;
  SkipPaths : list string
}.

(** ** Strings and request accessors used by auth.go *)

(** [strings.HasPrefix]. *)
Fixpoint HasPrefix (s prefix : string) {struct prefix} : bool :=
  match prefix with
  | EmptyString => true
  | String a prefix' =>
      match s with
      | EmptyString => false
      | String b s' => Ascii.eqb a b && HasPrefix s' prefix'
      end
  end.

Fixpoint dropString (n : nat) (s : string) : string :=
  match n, s with
  | O, _ => s
  | S n', String _ s' => dropString n' s'
  | S _, EmptyString => EmptyString
  end.

(** [strings.TrimPrefix]. *)
Definition TrimPrefix (s prefix : string) : string :=
  if HasPrefix s prefix then dropString (String.length prefix) s else s.

(** [http.Header.Get] and [url.Values.Get]: the first value stored under
    the key, the empty string when there is none. *)
Definition firstValue (vs : gmap string (list string)) (key : string) : string :=
  match vs !! key with
  | Some (v :: _) => v
  | _ => ""
  end.

Definition GetHeader (c : Context) (key : string) : string := firstValue (Header c) key.
Definition Query (c : Context) (key : string) : string := firstValue (QueryValues c) key.

(** ** auth.go: token extraction *)

Definition extractToken (c : Context) : string :=
  let authHeader := GetHeader c "Authorization" in
  if negb (String.eqb authHeader "") && HasPrefix authHeader "Bearer " then
    TrimPrefix authHeader "Bearer "
  else
    let token := Query c "token" in
    if negb (String.eqb token "") then token else "".

(** ** The JWKS cache *)

Module rsa.
Record PublicKey : Type := mkPublicKey { N : Z; E : Z }.
End rsa.

(** A single key of the JWKS endpoint's answer. *)
Module jwk.
Record jwksKey : Type := mkJwksKey {
    Kty : string; Kid : string; Use : string; Alg : string;
    N : string; E : string
  }.
End jwk.
Abbreviation jwksKey := jwk.jwksKey.

(** Instants are nanoseconds since the Unix epoch, durations nanoseconds. *)
Definition Second : Z := 1000000000.
Definition Hour : Z := 3600 * Second.
Definition maxDuration : Z := 2 ^ 63 - 1.
Definition minDuration : Z := - 2 ^ 63.

(** The zero [time.Time] (January 1, year 1), the value of a field never set. *)
Definition zeroTime : Z := - 62135596800 * Second.

(** [Time.Sub]: the difference, saturated to the range of a [Duration]. *)
Definition Sub (t u : Z) : Z := Z.max minDuration (Z.min maxDuration (t - u)).

(** The cache object without its lock and HTTP client. *)
Record JWKSCache : Type := mkJWKSCache {
  jwksURL : string;
  keys : gmap string rsa.PublicKey;
  lastFetch : Z;
  cacheTTL : Z
}.

Definition NewJWKSCache (url : string) : JWKSCache :=
  {| jwksURL := url; keys := ∅; lastFetch := zeroTime; cacheTTL := 1 * Hour |}.

(** What [httpClient.Get] can come back with: a transport error, or a
    response with its status code and what decoding its body into a
    [jwksResponse] yields ([None]: the body is not decodable). *)
Inductive HTTPResult : Type :=
  | TransportError
  | Response (StatusCode : Z) (Body : option (list jwksKey)).

Inductive Event : Type :=
  | EvGetKey (kid : string)
  | EvHTTPGet (url : string).

(** The world a request runs in: the cache its key function closes over,
    the clock (the n-th reading of [time.Now]), the identity provider's
    endpoint (its answer to the n-th GET), and what happened so far. *)
Record World : Type := mkWorld {
  cache : JWKSCache;
  clock : nat -> Z;
  ticks : nat;
  endpoint : nat -> HTTPResult;
  gets : nat;
  trace : list Event
}.

Definition M (A : Type) : Type := World -> A * World.

Definition ret {A} (a : A) : M A := fun w => (a, w).
Definition bind {A B} (m : M A) (k : A -> M B) : M B :=
  fun w => let (a, w') := m w in k a w'.

Notation "'do' x <- m ; k" := (bind m (fun x => k))
  (at level 10, x name, m at level 100, k at level 200).
Notation "m ;; k" := (bind m (fun _ => k))
  (at level 100, k at level 200, right associativity).

Definition getCache : M JWKSCache := fun w => (cache w, w).

Definition putCache (j : JWKSCache) : M unit := fun w =>
  (tt, {| cache := j; clock := clock w; ticks := ticks w;
          endpoint := endpoint w; gets := gets w; trace := trace w |}).

(** [time.Now()]. *)
Definition Now : M Z := fun w =>
  (clock w (ticks w),
   {| cache := cache w; clock := clock w; ticks := S (ticks w);
      endpoint := endpoint w; gets := gets w; trace := trace w |}).

(** [time.Since(t)]. *)
Definition Since (t : Z) : M Z := do now <- Now; ret (Sub now t).

Definition emit (e : Event) : M unit := fun w =>
  (tt, {| cache := cache w; clock := clock w; ticks := ticks w;
          endpoint := endpoint w; gets := gets w; trace := trace w ++ [e] |}).

(** [j.httpClient.Get(url)]. *)
Definition httpGet (url : string) : M HTTPResult := fun w =>
  (endpoint w (gets w),
   {| cache := cache w; clock := clock w; ticks := ticks w;
      endpoint := endpoint w; gets := S (gets w);
      trace := trace w ++ [EvHTTPGet url] |}).

Inductive refreshError : Type :=
  | FetchFailed                       (* "JWKS fetch failed: ..." *)
  | BadStatus (status : Z)            (* "JWKS endpoint returned status %d" *)
  | DecodeFailed.                     (* "failed to decode JWKS: ..." *)

Inductive keyError : Type :=
  | RefreshFailed (e : refreshError)  (* "failed to refresh JWKS: ..." *)
  | KeyNotFound (kid : string).       (* "key %q not found in JWKS" *)

(** Go's [int] on a 64-bit platform. *)
Definition wrapInt (x : Z) : Z := (x + 2 ^ 63) mod 2 ^ 64 - 2 ^ 63.

Section Cache.

  (** [base64.RawURLEncoding.DecodeString], bytes as integers in 0..255. *)
Variable DecodeString : string -> option (list Z).

Definition SetBytes (buf : list Z) : Z :=
    fold_left (fun acc b => acc * 256 + b) buf 0.

Definition parseRSAPublicKey (nStr eStr : string) : option rsa.PublicKey :=
    match DecodeString nStr with
    | None => None
    | Some nBytes =>
        match DecodeString eStr with
        | None => None
        | Some eBytes =>
            let n := SetBytes nBytes in
            let e := fold_left (fun e b => wrapInt (wrapInt (Z.shiftl e 8) + b)) eBytes 0 in
            Some {| rsa.N := n; rsa.E := e |}
        end
    end.

  (** The loop of [refresh] that builds the new mapping. *)
Definition buildKeys (ks : list jwksKey) : gmap string rsa.PublicKey :=
    fold_left
      (fun newKeys k =>
         if negb (String.eqb (jwk.Kty k) "RSA") || negb (String.eqb (jwk.Use k) "sig")
         then newKeys
         else match parseRSAPublicKey (jwk.N k) (jwk.E k) with
              | None => newKeys
              | Some pubKey => <[jwk.Kid k := pubKey]> newKeys
              end)
      ks ∅.

Definition refresh : M (option refreshError) :=
    do j <- getCache;
    do since <- Since (lastFetch j);
    if since <? 30 * Second then ret None
    else
      do resp <- httpGet (jwksURL j);
      match resp with
      | TransportError => ret (Some FetchFailed)
      | Response status body =>
          if negb (status =? StatusOK) then ret (Some (BadStatus status))
          else match body with
               | None => ret (Some DecodeFailed)
               | Some jwks =>
                   let newKeys := buildKeys jwks in
                   do now <- Now;
                   putCache {| jwksURL := jwksURL j; keys := newKeys;
                               lastFetch := now; cacheTTL := cacheTTL j |};;
                   ret None
               end
      end.

  (** The part of [GetKey] after the fast path. *)
Definition fetchAndLookup (kid : string) : M (rsa.PublicKey + keyError) :=
    do err <- refresh;
    match err with
    | Some e => ret (inr (RefreshFailed e))
    | None =>
        do j <- getCache;
        match keys j !! kid with
        | None => ret (inr (KeyNotFound kid))
        | Some key => ret (inl key)
        end
    end.

Definition GetKey (kid : string) : M (rsa.PublicKey + keyError) :=
    emit (EvGetKey kid);;
    do j <- getCache;
    match keys j !! kid with
    | Some key =>
        do since <- Since (lastFetch j);
        if since <? cacheTTL j then ret (inl key) else fetchAndLookup kid
    | None => fetchAndLookup kid
    end.

End Cache.

(** ** The token parser the package calls (golang-jwt/jwt v5)

    The library is not part of the repository; this is the pipeline of
    [jwt.Parse] as the package uses it (a [MapClaims] token, the options
    [WithIssuer] and [WithValidMethods], default validator without leeway).
    Splitting and decoding the three segments and the RSA verification are
    parameters. *)
Module jwt.

Inductive SigningMethod : Type :=
    | SigningMethodRSA (alg : string)
    | SigningMethodRSAPSS (alg : string)
    | SigningMethodECDSA (alg : string)
    | SigningMethodHMAC (alg : string)
    | SigningMethodEd25519
    | signingMethodNone.

Definition Alg (m : SigningMethod) : string :=
    match m with
    | SigningMethodRSA alg | SigningMethodRSAPSS alg
    | SigningMethodECDSA alg | SigningMethodHMAC alg => alg
    | SigningMethodEd25519 => "EdDSA"
    | signingMethodNone => "none"
    end.

  (** The registry of signing methods. *)
Definition GetSigningMethod (alg : string) : option SigningMethod :=
    if existsb (String.eqb alg) ["RS256"; "RS384"; "RS512"] then Some (SigningMethodRSA alg)
    else if existsb (String.eqb alg) ["PS256"; "PS384"; "PS512"] then Some (SigningMethodRSAPSS alg)
    else if existsb (String.eqb alg) ["ES256"; "ES384"; "ES512"] then Some (SigningMethodECDSA alg)
    else if existsb (String.eqb alg) ["HS256"; "HS384"; "HS512"] then Some (SigningMethodHMAC alg)
    else if String.eqb alg "EdDSA" then Some SigningMethodEd25519
    else if String.eqb alg "none" then Some signingMethodNone
    else None.

Record Token : Type := mkToken {
    Raw : string;
    Method : SigningMethod;
    Header : gmap string JSON;
    Claims : gmap string JSON;      (* jwt.MapClaims *)
    Signature : string;
    Valid : bool
  }.

  (** A token string split at its dots, header and payload decoded. *)
Record Segments : Type := mkSegments {
    segHeader : gmap string JSON;
    segClaims : gmap string JSON;
    segText : string;               (* parts[0] + "." + parts[1] *)
    segSignature : string           (* parts[2] *)
  }.

Inductive ClaimError : Type :=
    | ErrTokenExpired
    | ErrTokenNotValidYet
    | ErrTokenInvalidIssuer
    | ErrTokenRequiredClaimMissing
    | ErrInvalidType.

  (** [MapClaims.parseNumericDate]: absent and 0 both count as not set. *)
Definition parseNumericDate (m : gmap string JSON) (key : string) : option Z + ClaimError :=
    match m !! key with
    | None => inl None
    | Some (JNumber n) => if n =? 0 then inl None else inl (Some n)
    | Some _ => inr ErrInvalidType
    end.

  (** [MapClaims.parseString]. *)
Definition parseString (m : gmap string JSON) (key : string) : string + ClaimError :=
    match m !! key with
    | None => inl ""
    | Some (JString s) => inl s
    | Some _ => inr ErrInvalidType
    end.

Definition verifyExpiresAt (m : gmap string JSON) (now : Z) : list ClaimError :=
    match parseNumericDate m "exp" with
    | inr e => [e]
    | inl None => []
    | inl (Some exp) => if now <? exp * Second then [] else [ErrTokenExpired]
    end.

Definition verifyNotBefore (m : gmap string JSON) (now : Z) : list ClaimError :=
    match parseNumericDate m "nbf" with
    | inr e => [e]
    | inl None => []
    | inl (Some nbf) => if now <? nbf * Second then [ErrTokenNotValidYet] else []
    end.

Definition verifyIssuer (m : gmap string JSON) (cmp : string) : list ClaimError :=
    match parseString m "iss" with
    | inr e => [e]
    | inl iss =>
        if String.eqb iss "" then [ErrTokenRequiredClaimMissing]
        else if String.eqb iss cmp then [] else [ErrTokenInvalidIssuer]
    end.

  (** [Validator.Validate]: every failed check is reported. *)
Definition Validate (m : gmap string JSON) (now : Z) (expectedIss : string) : list ClaimError :=
    verifyExpiresAt m now ++ verifyNotBefore m now ++
    (if String.eqb expectedIss "" then [] else verifyIssuer m expectedIss).

Section Parser.

Variable KeyfuncError : Type.
Variable DecodeSegments : string -> option Segments.
Variable Verify : SigningMethod -> string -> string -> rsa.PublicKey -> bool.

Inductive Error : Type :=
      | ErrTokenMalformed
      | ErrSigningMethodUnspecified             (* "signing method (alg) is unspecified" *)
      | ErrSigningMethodUnavailable             (* "signing method (alg) is unavailable" *)
      | ErrSigningMethodInvalid (alg : string)  (* "signing method %v is invalid" *)
      | ErrKeyfunc (e : KeyfuncError)           (* "error while executing keyfunc" *)
      | ErrTokenSignatureInvalid
      | ErrTokenInvalidClaims (errs : list ClaimError).

Definition Parse (tokenString : string)
        (keyFunc : Token -> M (rsa.PublicKey + KeyfuncError))
        (expectedIss : string) (validMethods : list string) : M (Token + Error) :=
      match DecodeSegments tokenString with
      | None => ret (inr ErrTokenMalformed)
      | Some seg =>
          match segHeader seg !! "alg" with
          | Some (JString alg) =>
              match GetSigningMethod alg with
              | None => ret (inr ErrSigningMethodUnavailable)
              | Some method =>
                  let token :=
                    {| Raw := tokenString; Method := method; Header := segHeader seg;
                       Claims := segClaims seg; Signature := segSignature seg;
                       Valid := false |} in
                  if negb (existsb (String.eqb (Alg method)) validMethods)
                  then ret (inr (ErrSigningMethodInvalid (Alg method)))
                  else
                    do got <- keyFunc token;
                    match got with
                    | inr e => ret (inr (ErrKeyfunc e))
                    | inl key =>
                        if negb (Verify method (segText seg) (segSignature seg) key)
                        then ret (inr ErrTokenSignatureInvalid)
                        else
                          do now <- Now;
                          match Validate (segClaims seg) now expectedIss with
                          | [] =>
                              ret (inl {| Raw := tokenString; Method := method;
                                          Header := segHeader seg; Claims := segClaims seg;
                                          Signature := segSignature seg; Valid := true |})
                          | errs => ret (inr (ErrTokenInvalidClaims errs))
                          end
                    end
              end
          | _ => ret (inr ErrSigningMethodUnspecified)
          end
      end.

End Parser.

Arguments ErrTokenMalformed {KeyfuncError}.
Arguments ErrSigningMethodUnspecified {KeyfuncError}.
Arguments ErrSigningMethodUnavailable {KeyfuncError}.
Arguments ErrSigningMethodInvalid {KeyfuncError} alg.
Arguments ErrKeyfunc {KeyfuncError} e.
Arguments ErrTokenSignatureInvalid {KeyfuncError}.
Arguments ErrTokenInvalidClaims {KeyfuncError} errs.
Arguments Parse {KeyfuncError} DecodeSegments Verify tokenString keyFunc expectedIss validMethods.

End jwt.

(** ** auth.go: validation *)

(** What the key function can fail with. *)
Inductive keyfuncError : Type :=
  | UnexpectedSigningMethod (alg : option JSON)  (* "unexpected signing method: %v" *)
  | MissingKid                                   (* "missing kid in token header" *)
  | KeyLookup (e : keyError).

Inductive validateError : Type :=
  | InvalidToken (e : option (jwt.Error keyfuncError))  (* "invalid token: %w" *)
  | InvalidClaimsType.                           (* "invalid claims type" *)

Definition getStringClaim (m : gmap string JSON) (key : string) : string :=
  match m !! key with
  | Some (JString v) => v
  | _ => ""
  end.

(** [validateAudience] returns nil ([true]) or an error ([false]). A token
    that [jwt.Parse] returned always carries [MapClaims]. *)
Definition validateAudience (token : jwt.Token) (expectedAudience : string) : bool :=
  match jwt.Claims token !! "aud" with
  | Some (JString aud) => String.eqb aud expectedAudience
  | Some (JArray aud) =>
      existsb (fun a => match a with
                        | JString s => String.eqb s expectedAudience
                        | _ => false
                        end) aud
  | _ => false
  end.

(** The struct literal and the role assignment shared by [AuthN] and
    [ValidateToken]; [OrgDomain] keeps its zero value. *)
Definition buildClaims (mapClaims : gmap string JSON) : Claims :=
  {| models.Sub := getStringClaim mapClaims "sub";
     models.Email := getStringClaim mapClaims "email";
     models.OrgID := getStringClaim mapClaims "urn:zitadel:iam:org:id";
     models.OrgDomain := "";
     models.Roles :=
       match mapClaims !! "urn:zitadel:iam:org:project:roles" with
       | Some (JObject roles) => Some roles
       | _ => None
       end |}.

(** [skipSet] as built by [AuthN]; a missing key reads as [false]. *)
Definition skipSet (cfg : Config) : gmap string bool :=
  fold_left (fun m p => <[p := true]> m) (SkipPaths cfg) ∅.

Section Auth.

Variable DecodeString : string -> option (list Z).
Variable DecodeSegments : string -> option jwt.Segments.
Variable Verify : jwt.SigningMethod -> string -> string -> rsa.PublicKey -> bool.

(** The key function; [AuthN] and [ValidateToken] inline the same body. *)
Definition KeyFunc (token : jwt.Token) : M (rsa.PublicKey + keyfuncError) :=
  match jwt.Method token with
  | jwt.SigningMethodRSA _ =>
      match jwt.Header token !! "kid" with
      | Some (JString kid) =>
          do r <- GetKey DecodeString kid;
          match r with
          | inr err => ret (inr (KeyLookup err))
          | inl key => ret (inl key)
          end
      | _ => ret (inr MissingKid)
      end
  | _ => ret (inr (UnexpectedSigningMethod (jwt.Header token !! "alg")))
  end.

Definition parseToken (tokenStr : string) (cfg : Config) : M (jwt.Token + jwt.Error keyfuncError) :=
  jwt.Parse DecodeSegments Verify tokenStr KeyFunc (IssuerURL cfg) ["RS256"].

(** The handler returned by [AuthN cfg]; the world's cache is the one
    created when the middleware was built. The claims of a parsed token are
    always [MapClaims], so the "invalid token claims" answer of the source
    has no case here. *)
Definition AuthN (cfg : Config) (c : Context) : M Outcome :=
  if default false (skipSet cfg !! FullPath c) then ret (Next c)
  else
    let tokenStr := extractToken c in
    if String.eqb tokenStr "" then
      ret (AbortWithStatusJSON StatusUnauthorized "missing or invalid Authorization header")
    else
      do r <- parseToken tokenStr cfg;
      match r with
      | inr _ => ret (AbortWithStatusJSON StatusUnauthorized "invalid or expired token")
      | inl token =>
          if negb (jwt.Valid token) then
            ret (AbortWithStatusJSON StatusUnauthorized "invalid or expired token")
          else if negb (String.eqb (Audience cfg) "") && negb (validateAudience token (Audience cfg)) then
            ret (AbortWithStatusJSON StatusUnauthorized "token audience mismatch")
          else
            ret (Next (SetClaims c (Some (buildClaims (jwt.Claims token)))))
      end.

(** Run [m] against a cache of its own, as [ValidateToken] does with the
    cache it creates; the caller's cache is untouched. *)
Definition withCache {A} (j : JWKSCache) (m : M A) : M A := fun w =>
  let (a, w') := m {| cache := j; clock := clock w; ticks := ticks w;
                      endpoint := endpoint w; gets := gets w; trace := trace w |} in
  (a, {| cache := cache w; clock := clock w'; ticks := ticks w';
         endpoint := endpoint w'; gets := gets w'; trace := trace w' |}).

Definition ValidateToken (tokenStr : string) (cfg : Config) : M (Claims + validateError) :=
  withCache (NewJWKSCache (IssuerURL cfg ++ "/oauth/v2/keys"))
    (do r <- parseToken tokenStr cfg;
     match r with
     | inr err => ret (inr (InvalidToken (Some err)))
     | inl token =>
         if negb (jwt.Valid token) then ret (inr (InvalidToken None))
         else ret (inl (buildClaims (jwt.Claims token)))
     end).

End Auth.

(** ** Concurrent callers of [GetKey]

    The same code, one instruction block per step, with the reader/writer
    lock made explicit. A caller is at one of the program points below; a
    schedule picks which caller moves next or lets time pass. A caller that
    cannot take the lock it waits for cannot be scheduled. *)
Module Concurrent.

Inductive pc : Type :=
  | Start                                  (* before j.mu.RLock() *)
  | FastCheck                              (* read lock held: lookup and TTL test *)
  | WantLock                               (* refresh: before j.mu.Lock() *)
  | Locked                                 (* write lock held: the 30 s test *)
  | Fetching (n : nat)                     (* write lock held: the n-th GET is in flight *)
  | Unlocking (err : option refreshError)  (* refresh returns: deferred Unlock *)
  | Reread                                 (* before the second j.mu.RLock() *)
  | FinalLookup                            (* read lock held: final lookup *)
  | Done (r : rsa.PublicKey + keyError).

Record State : Type := mkState {
  jwks : JWKSCache;
  readers : nat;                 (* holders of the read lock *)
  writer : bool;                 (* the write lock is held *)
  callers : list (string * pc);  (* requested key id and program point *)
  now : Z;
  endpoint : nat -> HTTPResult;
  gets : nat                     (* GETs issued so far *)
}.

Inductive Action : Type :=
  | Run (i : nat)                (* caller i executes its next block *)
  | Tick (d : nat).              (* d nanoseconds pass *)

Definition setCaller (s : State) (i : nat) (kid : string) (p : pc) : list (string * pc) :=
  <[i := (kid, p)]> (callers s).

Section Steps.

Variable DecodeString : string -> option (list Z).

Definition stepCaller (s : State) (i : nat) (kid : string) (p : pc) : option State :=
  match p with
  | Start =>
      if writer s then None
      else Some {| jwks := jwks s; readers := S (readers s); writer := writer s;
                   callers := setCaller s i kid FastCheck; now := now s;
                   endpoint := endpoint s; gets := gets s |}
  | FastCheck =>
      let next :=
        match keys (jwks s) !! kid with
        | Some key =>
            if Sub (now s) (lastFetch (jwks s)) <? cacheTTL (jwks s)
            then Done (inl key) else WantLock
        | None => WantLock
        end in
      Some {| jwks := jwks s; readers := pred (readers s); writer := writer s;
              callers := setCaller s i kid next; now := now s;
              endpoint := endpoint s; gets := gets s |}
  | WantLock =>
      if writer s || negb (Nat.eqb (readers s) 0) then None
      else Some {| jwks := jwks s; readers := readers s; writer := true;
                   callers := setCaller s i kid Locked; now := now s;
                   endpoint := endpoint s; gets := gets s |}
  | Locked =>
      if Sub (now s) (lastFetch (jwks s)) <? 30 * Second
      then Some {| jwks := jwks s; readers := readers s; writer := writer s;
                   callers := setCaller s i kid (Unlocking None); now := now s;
                   endpoint := endpoint s; gets := gets s |}
      else Some {| jwks := jwks s; readers := readers s; writer := writer s;
                   callers := setCaller s i kid (Fetching (gets s)); now := now s;
                   endpoint := endpoint s; gets := S (gets s) |}
  | Fetching n =>
      match endpoint s n with
      | TransportError =>
          Some {| jwks := jwks s; readers := readers s; writer := writer s;
                  callers := setCaller s i kid (Unlocking (Some FetchFailed)); now := now s;
                  endpoint := endpoint s; gets := gets s |}
      | Response status body =>
          if negb (status =? StatusOK)
          then Some {| jwks := jwks s; readers := readers s; writer := writer s;
                       callers := setCaller s i kid (Unlocking (Some (BadStatus status)));
                       now := now s; endpoint := endpoint s; gets := gets s |}
          else match body with
               | None =>
                   Some {| jwks := jwks s; readers := readers s; writer := writer s;
                           callers := setCaller s i kid (Unlocking (Some DecodeFailed));
                           now := now s; endpoint := endpoint s; gets := gets s |}
               | Some ks =>
                   Some {| jwks := {| jwksURL := jwksURL (jwks s);
                                      keys := buildKeys DecodeString ks;
                                      lastFetch := now s;
                                      cacheTTL := cacheTTL (jwks s) |};
                           readers := readers s; writer := writer s;
                           callers := setCaller s i kid (Unlocking None); now := now s;
                           endpoint := endpoint s; gets := gets s |}
               end
      end
  | Unlocking err =>
      let next := match err with
                  | Some e => Done (inr (RefreshFailed e))
                  | None => Reread
                  end in
      Some {| jwks := jwks s; readers := readers s; writer := false;
              callers := setCaller s i kid next; now := now s;
              endpoint := endpoint s; gets := gets s |}
  | Reread =>
      if writer s then None
      else Some {| jwks := jwks s; readers := S (readers s); writer := writer s;
                   callers := setCaller s i kid FinalLookup; now := now s;
                   endpoint := endpoint s; gets := gets s |}
  | FinalLookup =>
      let r := match keys (jwks s) !! kid with
               | Some key => inl key
               | None => inr (KeyNotFound kid)
               end in
      Some {| jwks := jwks s; readers := pred (readers s); writer := writer s;
              callers := setCaller s i kid (Done r); now := now s;
              endpoint := endpoint s; gets := gets s |}
  | Done _ => None
  end.

Definition step (s : State) (a : Action) : option State :=
  match a with
  | Run i =>
      match callers s !! i with
      | Some (kid, p) => stepCaller s i kid p
      | None => None
      end
  | Tick d =>
      Some {| jwks := jwks s; readers := readers s; writer := writer s;
              callers := callers s; now := now s + Z.of_nat d;
              endpoint := endpoint s; gets := gets s |}
  end.

Fixpoint run (s : State) (schedule : list Action) : option State :=
  match schedule with
  | [] => Some s
  | a :: rest =>
      match step s a with
      | Some s' => run s' rest
      | None => None
      end
  end.

End Steps.

(** [n] callers asking for the same key id, none of them started. *)
Definition init (j : JWKSCache) (t0 : Z) (ep : nat -> HTTPResult) (n : nat) (kid : string) : State :=
  {| jwks := j; readers := 0; writer := false; callers := replicate n (kid, Start);
     now := t0; endpoint := ep; gets := 0 |}.

Definition isFetching (c : string * pc) : bool :=
  match snd c with Fetching _ => true | _ => false end.

Definition holdsWriteLock (c : string * pc) : bool :=
  match snd c with Locked | Fetching _ | Unlocking _ => true | _ => false end.

Fixpoint count (f : string * pc -> bool) (cs : list (string * pc)) : nat :=
  match cs with
  | [] => 0%nat
  | c :: rest => ((if f c then 1 else 0) + count f rest)%nat
  end.

(** Number of GETs in flight. *)
Definition inFlight (s : State) : nat := count isFetching (callers s).

End Concurrent.

(** ** Roles built entry by entry *)

(** A role mapping filled by successive assignments [roles[k] = v]. *)
Definition rolesOf (entries : list (string * JSON)) : gmap string JSON :=
  fold_left (fun m kv => <[kv.1 := kv.2]> m) entries ∅.

(** A request whose bound claims carry the given roles. *)
Definition withRoles (c : Context) (cl : Claims) (roles : option (gmap string JSON)) : Context :=
  SetClaims c (Some {| models.Sub := models.Sub cl; models.Email := models.Email cl;
                       models.OrgID := models.OrgID cl; models.OrgDomain := models.OrgDomain cl;
                       models.Roles := roles |}).

Definition tenantMissing : string :=
  "no organization context — user must belong to an organization".

(** ** Names for the outcomes of [AuthN] *)

Definition skipped (cfg : Config) (c : Context) : bool :=
  default false (skipSet cfg !! FullPath c).

Definition missingToken : Outcome :=
  AbortWithStatusJSON 401 "missing or invalid Authorization header".
Definition invalidToken : Outcome :=
  AbortWithStatusJSON 401 "invalid or expired token".
Definition audienceMismatch : Outcome :=
  AbortWithStatusJSON 401 "token audience mismatch".

(** ** Sample requests *)

Definition demoClaims : Claims :=
  {| models.Sub := "u1"; models.Email := "u1@idp.example"; models.OrgID := "org1";
     models.OrgDomain := ""; models.Roles := None |}.

Definition demoContext : Context :=
  {| FullPath := "/api/v1/items"; Header := ∅; QueryValues := ∅; Keys := ∅ |}.

(** A request with an empty bearer token in the header and a token in the
    query string. *)
Definition emptyBearerRequest : Context :=
  {| FullPath := "/api/v1/items";
     Header := {[ "Authorization" := ["Bearer "] ]};
     QueryValues := {[ "token" := ["abc"] ]};
     Keys := ∅ |}.

(** The error [jwt.Parse] raises for a declared algorithm that is not
    allowed: unknown to the library, or known but not listed. *)
Definition unsupportedAlgorithm (alg : string) : jwt.Error keyfuncError :=
  match jwt.GetSigningMethod alg with
  | Some _ => jwt.ErrSigningMethodInvalid alg
  | None => jwt.ErrSigningMethodUnavailable
  end.

(** ** The age of the cache as the next clock reading will see it *)

Definition sinceLastFetch (w : World) : Z :=
  Sub (clock w (ticks w)) (lastFetch (cache w)).

(** The world after an event was recorded. *)
Definition emitted (e : Event) (w : World) : World := (emit e w).2.

(** ** Outcomes of a GET, as [refresh] classifies them *)

Definition fetchError (r : HTTPResult) : option refreshError :=
  match r with
  | TransportError => Some FetchFailed
  | Response status body =>
      if negb (status =? StatusOK) then Some (BadStatus status)
      else match body with
           | None => Some DecodeFailed
           | Some _ => None
           end
  end.

(** ** A sample identity provider, its key and tokens *)

Definition demoIssuer : string := "https://idp.example".

Definition demoCfg : Config :=
  {| IssuerURL := demoIssuer; Audience := "proj1"; SkipPaths := ["/health"] |}.

Definition demoDecodeString (s : string) : option (list Z) :=
  if String.eqb s "AQAB" then Some [1; 0; 1]
  else if String.eqb s "uw" then Some [187]
  else None.

Definition demoJWK : jwksKey :=
  {| jwk.Kty := "RSA"; jwk.Kid := "k1"; jwk.Use := "sig"; jwk.Alg := "RS256";
     jwk.N := "uw"; jwk.E := "AQAB" |}.

Definition demoPayload (aud : string) (exp : Z) : gmap string JSON :=
  <["iss" := JString demoIssuer]>
  (<["aud" := JString aud]>
  (<["exp" := JNumber exp]>
  (<["sub" := JString "user-1"]>
  (<["email" := JString "user-1@acme.example"]>
  (<["urn:zitadel:iam:org:id" := JString "org-1"]>
  (<["urn:zitadel:iam:user:resourceowner:primary_domain" := JString "acme.example"]>
  (<["urn:zitadel:iam:org:project:roles" := JObject {[ "admin" := JObject ∅ ]}]> ∅))))))).

Definition demoSegments (alg : string) (aud : string) (exp : Z) : jwt.Segments :=
  {| jwt.segHeader := <["alg" := JString alg]> (<["kid" := JString "k1"]> ∅);
     jwt.segClaims := demoPayload aud exp;
     jwt.segText := "header.payload";
     jwt.segSignature := "signed-by-k1" |}.

(** Four token strings: valid for an hour past the sample clock, expired,
    issued for another audience, and declared unsigned. *)
Definition demoDecodeSegments (s : string) : option jwt.Segments :=
  if String.eqb s "token-valid" then Some (demoSegments "RS256" "proj1" 1900003600)
  else if String.eqb s "token-expired" then Some (demoSegments "RS256" "proj1" 1899996400)
  else if String.eqb s "token-other-aud" then Some (demoSegments "RS256" "other-proj" 1900003600)
  else if String.eqb s "token-none" then Some (demoSegments "none" "proj1" 1900003600)
  else None.

Definition demoVerify (m : jwt.SigningMethod) (text signature : string) (key : rsa.PublicKey) : bool :=
  String.eqb signature "signed-by-k1" && (rsa.N key =? 187) && (rsa.E key =? 65537).

Definition demoNow : Z := 1900000000 * Second.

(** A world whose cache was just created and whose endpoint publishes the
    sample key. *)
Definition demoWorld : World :=
  {| cache := NewJWKSCache (demoIssuer ++ "/oauth/v2/keys");
     clock := fun _ => demoNow; ticks := 0;
     endpoint := fun _ => Response 200 (Some [demoJWK]);
     gets := 0; trace := [] |}.

Definition bearerRequest (token : string) : Context :=
  {| FullPath := "/api/v1/items";
     Header := {[ "Authorization" := ["Bearer " ++ token] ]};
     QueryValues := ∅; Keys := ∅ |}.

(** A world whose key set was fetched a minute ago with a one-hour TTL. *)
Definition freshCache : JWKSCache :=
  {| jwksURL := demoIssuer ++ "/oauth/v2/keys";
     keys := {[ "k1" := {| rsa.N := 187; rsa.E := 65537 |} ]};
     lastFetch := demoNow - 60 * Second; cacheTTL := 1 * Hour |}.

Definition freshWorld : World :=
  {| cache := freshCache; clock := fun _ => demoNow; ticks := 0;
     endpoint := fun _ => Response 200 (Some [demoJWK]);
     gets := 0; trace := [] |}.

(** The same cache, stale, in front of an endpoint that is down. *)
Definition staleCache : JWKSCache :=
  {| jwksURL := demoIssuer ++ "/oauth/v2/keys";
     keys := {[ "k1" := {| rsa.N := 187; rsa.E := 65537 |} ]};
     lastFetch := demoNow - 2 * Hour; cacheTTL := 1 * Hour |}.

Definition outageWorld : World :=
  {| cache := staleCache; clock := fun _ => demoNow; ticks := 0;
     endpoint := fun _ => TransportError;
     gets := 0; trace := [] |}.

(** The response of the sample middleware, started on the sample world. *)
Definition demoRespond (c : Context) : Outcome :=
  (AuthN demoDecodeString demoDecodeSegments demoVerify demoCfg c demoWorld).1.

(** ** Sample schedules for two concurrent callers *)

(** Both callers miss the fast path on the stale cache; caller 0 takes the
    write lock, fetches, fails and returns; caller 1 then takes the lock
    and passes the 30 s test as well. No time passes. *)
Definition outageSchedule : list Concurrent.Action :=
  [Concurrent.Run 0; Concurrent.Run 1; Concurrent.Run 0; Concurrent.Run 1;
   Concurrent.Run 0; Concurrent.Run 0; Concurrent.Run 0; Concurrent.Run 0;
   Concurrent.Run 1; Concurrent.Run 1]%nat.

Definition outageStart : Concurrent.State :=
  Concurrent.init staleCache demoNow (fun _ => TransportError) 2 "k1".

Definition healthyStart : Concurrent.State :=
  Concurrent.init staleCache demoNow (fun _ => Response 200 (Some [demoJWK])) 2 "k1".

(** The write lock is held by exactly the callers inside [refresh]. *)
Definition lockInv (s : Concurrent.State) : Prop :=
  Concurrent.count Concurrent.holdsWriteLock (Concurrent.callers s)
  = (if Concurrent.writer s then 1 else 0)%nat.

(** Within 30 s of the start [t0], with an endpoint that answers: no GET
    yet, or one GET that is in flight or has stored its result. *)
Definition onceInv (t0 : Z) (s : Concurrent.State) : Prop :=
  (Concurrent.gets s = 0%nat /\ Concurrent.inFlight s = 0%nat)
  \/ (Concurrent.gets s = 1%nat /\
      (Concurrent.inFlight s = 1%nat \/
       (Concurrent.inFlight s = 0%nat /\ t0 <= lastFetch (Concurrent.jwks s)))).

(** Everything the results on concurrent callers need, carried along a run. *)
Definition runInv (t0 : Z) (ep : nat -> HTTPResult) (s : Concurrent.State) : Prop :=
  lockInv s /\ t0 <= Concurrent.now s /\ Concurrent.endpoint s = ep /\
  ((forall k, exists ks, ep k = Response StatusOK (Some ks)) ->
   Concurrent.now s - t0 < 30 * Second -> onceInv t0 s).

(** ** One caller run to completion *)

(** Caller [i] alone, for at most [fuel] blocks. *)
Fixpoint runCaller (DecodeString : string -> option (list Z))
    (fuel : nat) (i : nat) (s : Concurrent.State) : Concurrent.State :=
  match fuel with
  | O => s
  | S fuel' =>
      match Concurrent.step DecodeString s (Concurrent.Run i) with
      | Some s' => runCaller DecodeString fuel' i s'
      | None => s
      end
  end.

(** The concurrent state a single call of [GetKey kid] starts from in the
    world [w], the clock standing at [t]. *)
Definition soloStart (w : World) (t : Z) (kid : string) : Concurrent.State :=
  {| Concurrent.jwks := cache w; Concurrent.readers := 0; Concurrent.writer := false;
     Concurrent.callers := [(kid, Concurrent.Start)]; Concurrent.now := t;
     Concurrent.endpoint := fun k => endpoint w (gets w + k)%nat;
     Concurrent.gets := 0 |}.

(** ** invitation.go *)

(** Character set excluding ambiguous characters: 0, O, 1, I, L. *)
Definition charset : string := "ABCDEFGHJKMNPQRSTUVWXYZ23456789".
Definition codeLength : nat := 12.

(** [charset[i]]; the code only indexes with a remainder modulo the length. *)
Definition charsetAt (i : nat) : ascii :=
  match String.get i charset with
  | Some c => c
  | None => "000"%char
  end.

(** [GenerateAccessCode], given what [rand.Read] did with the buffer of
    [codeLength] bytes: [None] for an error, otherwise the bytes it stored. *)
Definition GenerateAccessCode (read : option (list Byte.byte)) : option string :=
  match read with
  | None => None
  | Some randomBytes =>
      let code := map (fun b => charsetAt (Byte.to_nat b mod String.length charset)) randomBytes in
      Some (string_of_list_ascii (take 4 code) ++ "-" ++
            string_of_list_ascii (take 4 (drop 4 code)) ++ "-" ++
            string_of_list_ascii (take 4 (drop 8 code)))
  end.

(** [strings.Split] for a separator of one byte. *)
Fixpoint Split (s : string) (sep : ascii) : list string :=
  match s with
  | EmptyString => [""]
  | String c s' =>
      if Ascii.eqb c sep then "" :: Split s' sep
      else match Split s' sep with
           | part :: parts => String c part :: parts
           | [] => [String c ""]
           end
  end.

(** [strings.ContainsRune validChars ch]. The valid characters are ASCII, so
    a byte of a multi-byte rune is rejected here exactly as the rune is
    rejected by the source. *)
Definition isValidAccessCodeChar (ch : ascii) : bool :=
  existsb (Ascii.eqb ch) (list_ascii_of_string "ABCDEFGHJKMNPQRSTUVWXYZ23456789").

Definition ValidateAccessCodeFormat (code : string) : bool :=
  if negb (Nat.eqb (String.length code) 14) then false
  else
    let parts := Split code "-" in
    if negb (Nat.eqb (length parts) 3) then false
    else forallb (fun part =>
                    Nat.eqb (String.length part) 4 &&
                    forallb isValidAccessCodeChar (list_ascii_of_string part)) parts.

(** All 256 byte values. *)
Definition allBytes : list Byte.byte :=
  omap (fun n => Byte.of_nat n) (seq 0 256).

(** How many byte values [GenerateAccessCode] maps to the character [c]. *)
Definition bytesYielding (c : ascii) : nat :=
  length (filter (fun b => charsetAt (Byte.to_nat b mod String.length charset) = c) allBytes).

(** A string without the separator. *)
Definition noSep (sep : ascii) (s : string) : Prop :=
  Forall (fun c => Ascii.eqb c sep = false) (list_ascii_of_string s).

(** A group of an access code: four characters of the alphabet. *)
Definition validPart (part : string) : Prop :=
  String.length part = 4%nat /\
  forallb isValidAccessCodeChar (list_ascii_of_string part) = true.

(** ** Further names used in the properties *)

(** The world [ValidateToken] parses in: the caller's world with the cache
    [ValidateToken] creates for itself. *)
Definition freshFor (cfg : Config) (w : World) : World :=
  {| cache := NewJWKSCache (IssuerURL cfg ++ "/oauth/v2/keys");
     clock := clock w; ticks := ticks w; endpoint := endpoint w;
     gets := gets w; trace := trace w |}.


(** An entry of the key set that [refresh] keeps. *)
Definition usableKey (DecodeString : string -> option (list Z)) (k : jwksKey) : Prop :=
  jwk.Kty k = "RSA" /\ jwk.Use k = "sig" /\
  is_Some (parseRSAPublicKey DecodeString (jwk.N k) (jwk.E k)).





(** The request of the skip-listed health route. *)
Definition healthRequest : Context :=
  {| FullPath := "/health"; Header := ∅; QueryValues := ∅; Keys := ∅ |}.

(** The sample key as the cache stores it. *)
Definition demoKey : rsa.PublicKey := {| rsa.N := 187; rsa.E := 65537 |}.

(** A decoder that knows one token, whose header has no key id. *)
Definition noKidDecodeSegments (s : string) : option jwt.Segments :=
  if String.eqb s "token-no-kid"
  then Some {| jwt.segHeader := {[ "alg" := JString "RS256" ]};
               jwt.segClaims := demoPayload "proj1" 1900003600;
               jwt.segText := "header.payload";
               jwt.segSignature := "signed-by-k1" |}
  else None.

(** * Properties *)

(** ** Role and tenant checks *)

Lemma HasRole_true (c : Context) (role : string) :
  HasRole c role = true <->
  exists cl roles, GetClaims c = Some cl /\ models.Roles cl = Some roles /\ role ∈ dom roles.
Proof.
  unfold HasRole. split.
  - destruct (GetClaims c) as [cl|]; [|done].
    destruct (models.Roles cl) as [roles|] eqn:Hr; [|done].
    destruct (roles !! role) eqn:Hl; [|done].
    intros _. exists cl, roles. split_and!; [done..|].
    apply elem_of_dom. eauto.
  - intros (cl & roles & -> & -> & Hin).
    apply elem_of_dom in Hin as [v ->]. done.
Qed.

Lemma HasAnyRole_true (c : Context) (rs : list string) :
  HasAnyRole c rs = true <-> exists r, r ∈ rs /\ HasRole c r = true.
Proof.
  induction rs as [|r rs IH]; simpl.
  - split; [done|]. intros (r & Hin & _). by apply elem_of_nil in Hin.
  - destruct (HasRole c r) eqn:Hr.
    + split; [|done]. intros _. exists r. split; [left|done].
    + rewrite IH. split.
      * intros (r' & Hin & H). exists r'. split; [by right|done].
      * intros (r' & Hin & H). apply elem_of_cons in Hin as [->|Hin]; [congruence|eauto].
Qed.

Lemma rolesOf_dom (entries : list (string * JSON)) :
  dom (rolesOf entries) = list_to_set entries.*1.
Proof.
  unfold rolesOf.
  enough (forall (m : gmap string JSON),
    dom (fold_left (fun m kv => <[kv.1 := kv.2]> m) entries m)
    = list_to_set entries.*1 ∪ dom m) as H.
  { rewrite H, dom_empty_L. set_solver. }
  induction entries as [|[k v] entries IH]; intros m; simpl.
  - set_solver.
  - rewrite IH, dom_insert_L. set_solver.
Qed.

Lemma GetClaims_SetClaims (c : Context) (p : option Claims) :
  GetClaims (SetClaims c p) = p.
Proof. unfold GetClaims, SetClaims. simpl. by rewrite lookup_insert_eq. Qed.

Lemma HasAnyRole_withRoles (c : Context) (cl : Claims) (roles : gmap string JSON) (rs : list string) :
  HasAnyRole (withRoles c cl (Some roles)) rs = true <-> exists r, r ∈ rs /\ r ∈ dom roles.
Proof.
  rewrite HasAnyRole_true. unfold withRoles. split.
  - intros (r & Hin & H). apply HasRole_true in H as (cl' & roles' & Hg & Hr & Hd).
    rewrite GetClaims_SetClaims in Hg. simplify_eq. simpl in Hr. simplify_eq. eauto.
  - intros (r & Hin & Hd). exists r. split; [done|]. apply HasRole_true.
    eexists _, roles. rewrite GetClaims_SetClaims. simpl. done.
Qed.

(** C7: [HasAnyRole c [a; b]] is true exactly when the key set of the bound
    claims' roles meets {a, b}; it does not depend on the order of the two
    arguments nor on the order in which the role entries were inserted, and
    it is false without claims and for nil or empty roles. *)
Theorem HasAnyRole_pair_intersects (c : Context) (a b : string) :
  (HasAnyRole c [a; b] = true <->
     exists cl roles, GetClaims c = Some cl /\ models.Roles cl = Some roles /\
                      dom roles ∩ {[a; b]} ≠ (∅ : gset string))
  /\ HasAnyRole c [a; b] = HasAnyRole c [b; a]
  /\ (GetClaims c = None -> HasAnyRole c [a; b] = false)
  /\ (forall cl, GetClaims c = Some cl ->
        models.Roles cl = None \/ models.Roles cl = Some ∅ ->
        HasAnyRole c [a; b] = false)
  /\ (forall cl entries1 entries2, entries1 ≡ₚ entries2 ->
        HasAnyRole (withRoles c cl (Some (rolesOf entries1))) [a; b]
        = HasAnyRole (withRoles c cl (Some (rolesOf entries2))) [a; b]).
Proof.
  split_and!.
  - rewrite HasAnyRole_true. split.
    + intros (r & Hin & H). apply HasRole_true in H as (cl & roles & Hg & Hr & Hd).
      exists cl, roles. split_and!; [done..|]. set_solver.
    + intros (cl & roles & Hg & Hr & Hne).
      assert (a ∈ dom roles \/ b ∈ dom roles) as [H|H].
      { destruct (decide (a ∈ dom roles)); [by left|].
        destruct (decide (b ∈ dom roles)); [by right|]. set_solver. }
      * exists a. split; [set_solver|]. apply HasRole_true. eauto.
      * exists b. split; [set_solver|]. apply HasRole_true. eauto.
  - simpl. destruct (HasRole c a), (HasRole c b); done.
  - intros Hg. simpl. unfold HasRole. by rewrite Hg.
  - intros cl Hg Hr. simpl. unfold HasRole. rewrite Hg.
    destruct Hr as [-> | ->]; [done|]. by rewrite !lookup_empty.
  - intros cl e1 e2 Hp.
    apply eq_true_iff_eq. rewrite !HasAnyRole_withRoles, !rolesOf_dom.
    assert (list_to_set e1.*1 = (list_to_set e2.*1 : gset string)) as ->; [|done].
    apply set_eq. intros x. rewrite !elem_of_list_to_set. by rewrite Hp.
Qed.

Lemma HasAnyRole_pair_intersects_witness :
  HasAnyRole (withRoles demoContext demoClaims
                (Some (rolesOf [("admin", JNull); ("editor", JBool true)]))) ["viewer"; "admin"]
  = HasAnyRole (withRoles demoContext demoClaims
                (Some (rolesOf [("editor", JBool true); ("admin", JNull)]))) ["viewer"; "admin"].
Proof.
  apply (HasAnyRole_pair_intersects demoContext "viewer" "admin").
  apply perm_swap.
Defined.

(** C8: [RequireTenant] answers 403 with the tenant-context-missing message
    exactly when no claims are bound or the bound claims have an empty
    [OrgID]; otherwise it passes the request on unchanged. *)
Theorem RequireTenant_denies_iff (c : Context) :
  (RequireTenant c = AbortWithStatusJSON 403 tenantMissing <->
     match GetClaims c with None => True | Some cl => models.OrgID cl = "" end)
  /\ (RequireTenant c = Next c <->
       exists cl, GetClaims c = Some cl /\ models.OrgID cl ≠ "")
  /\ (RequireTenant c = AbortWithStatusJSON 403 tenantMissing <-> OrgID c = "").
Proof.
  unfold RequireTenant, OrgID, tenantMissing, StatusForbidden.
  destruct (GetClaims c) as [cl|]; simpl.
  - destruct (String.eqb_spec (models.OrgID cl) "") as [He|Hne].
    + split_and!; [done| |done]. split; [done|]. intros (cl' & ? & ?). congruence.
    + split_and!; [split; [done|intros; congruence] | | split; [done|intros; congruence]].
      split; [|done]. intros _. eauto.
  - split_and!; [done| |done]. split; [done|]. intros (? & ? & _). done.
Qed.

(** C9: with no role listed, [RequireRole] answers 403 to every request,
    whatever claims and roles are bound to it. *)
Theorem RequireRole_empty_denies (c : Context) :
  RequireRole [] c
  = AbortWithStatusJSON 403 "insufficient permissions — requires one of: ".
Proof. reflexivity. Qed.

(** ** Token extraction *)

Lemma HasPrefix_split (s prefix : string) :
  HasPrefix s prefix = true -> s = prefix ++ dropString (String.length prefix) s.
Proof.
  revert s. induction prefix as [|a prefix IH]; intros s H; simpl in *; [done|].
  destruct s as [|b s]; [done|].
  apply andb_true_iff in H as [Hab Hp].
  apply Ascii.eqb_eq in Hab as ->.
  change (String b s = String b (prefix ++ dropString (String.length prefix) s)).
  f_equal. by apply IH.
Qed.

Lemma HasPrefix_self_append (prefix rest : string) : HasPrefix (prefix ++ rest) prefix = true.
Proof.
  induction prefix as [|a prefix IH]; [done|].
  change (HasPrefix (String a (prefix ++ rest)) (String a prefix) = true).
  simpl. by rewrite Ascii.eqb_refl.
Qed.

Lemma extractToken_bearer (c : Context) :
  HasPrefix (GetHeader c "Authorization") "Bearer " = true ->
  extractToken c = dropString 7 (GetHeader c "Authorization").
Proof.
  intros H. unfold extractToken, TrimPrefix. rewrite H.
  destruct (String.eqb_spec (GetHeader c "Authorization") "") as [He|_]; [|done].
  rewrite He in H. discriminate.
Qed.

Lemma extractToken_fallback (c : Context) :
  HasPrefix (GetHeader c "Authorization") "Bearer " = false ->
  extractToken c = Query c "token".
Proof.
  intros H. unfold extractToken. rewrite H, andb_false_r.
  by destruct (String.eqb_spec (Query c "token") "") as [->|_].
Qed.

Lemma extractToken_empty (c : Context) :
  extractToken c = "" <->
  GetHeader c "Authorization" = "Bearer " \/
  (HasPrefix (GetHeader c "Authorization") "Bearer " = false /\ Query c "token" = "").
Proof.
  destruct (HasPrefix (GetHeader c "Authorization") "Bearer ") eqn:Hp.
  - rewrite (extractToken_bearer c Hp).
    pose proof (HasPrefix_split _ _ Hp) as Hs.
    change (String.length "Bearer ") with 7%nat in Hs. split.
    + intros He. left. rewrite He in Hs. exact Hs.
    + intros [He | [? _]]; [|done]. by rewrite He.
  - rewrite (extractToken_fallback c Hp). split.
    + intros He. right. done.
    + intros [He | [_ ?]]; [|done]. rewrite He in Hp. discriminate.
Qed.

(** C10 as stated fails: for the header "Bearer " (prefix, empty token) the
    extracted token is empty although a "Bearer "-prefixed header and a
    non-empty "token" parameter are both present. *)
Lemma extractToken_empty_bearer_counterexample :
  ~ (extractToken emptyBearerRequest = "" <->
       (HasPrefix (GetHeader emptyBearerRequest "Authorization") "Bearer " = false /\
        Query emptyBearerRequest "token" = "")).
Proof.
  intros [H _]. assert (extractToken emptyBearerRequest = "") as He by reflexivity.
  destruct (H He) as [Hp _]. vm_compute in Hp. discriminate.
Qed.

Section AuthProperties.

Variable DecodeString : string -> option (list Z).
Variable DecodeSegments : string -> option jwt.Segments.
Variable Verify : jwt.SigningMethod -> string -> string -> rsa.PublicKey -> bool.

Local Abbreviation AuthN' := (AuthN DecodeString DecodeSegments Verify).
Local Abbreviation ValidateToken' := (ValidateToken DecodeString DecodeSegments Verify).
Local Abbreviation parseToken' := (parseToken DecodeString DecodeSegments Verify).
Local Abbreviation KeyFunc' := (KeyFunc DecodeString).
Local Abbreviation GetKey' := (GetKey DecodeString).
Local Abbreviation refresh' := (refresh DecodeString).
Local Abbreviation fetchAndLookup' := (fetchAndLookup DecodeString).

Lemma AuthN_missing (cfg : Config) (c : Context) (w : World) :
  skipped cfg c = false -> extractToken c = "" -> AuthN' cfg c w = (missingToken, w).
Proof.
  unfold skipped. intros Hs He. unfold AuthN. by rewrite Hs, He.
Qed.

Lemma AuthN_parse_error (cfg : Config) (c : Context) (w w' : World) e :
  skipped cfg c = false -> extractToken c ≠ "" ->
  parseToken' (extractToken c) cfg w = (inr e, w') ->
  AuthN' cfg c w = (invalidToken, w').
Proof.
  unfold skipped. intros Hs He Hp. unfold AuthN. rewrite Hs.
  destruct (String.eqb_spec (extractToken c) "") as [|_]; [done|].
  unfold bind. by rewrite Hp.
Qed.

Lemma AuthN_parsed (cfg : Config) (c : Context) (w w' : World) token :
  skipped cfg c = false -> extractToken c ≠ "" ->
  parseToken' (extractToken c) cfg w = (inl token, w') ->
  AuthN' cfg c w =
    (if negb (jwt.Valid token) then invalidToken
     else if negb (String.eqb (Audience cfg) "") && negb (validateAudience token (Audience cfg))
          then audienceMismatch
          else Next (SetClaims c (Some (buildClaims (jwt.Claims token)))), w').
Proof.
  unfold skipped. intros Hs He Hp. unfold AuthN. rewrite Hs.
  destruct (String.eqb_spec (extractToken c) "") as [|_]; [done|].
  unfold bind. rewrite Hp.
  destruct (negb (jwt.Valid token)); [done|].
  by destruct (negb (String.eqb (Audience cfg) "") && negb (validateAudience token (Audience cfg))).
Qed.

(** C10, amended: a header without the "Bearer " prefix is ignored and the
    "token" query parameter is used instead; a header with the prefix yields
    the text after it, also when that text is empty. The extracted token is
    empty exactly when the header is "Bearer " alone, or the header lacks
    the prefix and the query parameter is empty or absent; on a route that
    is not skipped this is exactly when the missing-token 401 is sent. *)
Theorem extractToken_fallback_and_empty (cfg : Config) (c : Context) (w : World) :
  skipped cfg c = false ->
  (HasPrefix (GetHeader c "Authorization") "Bearer " = false ->
     extractToken c = Query c "token")
  /\ (HasPrefix (GetHeader c "Authorization") "Bearer " = true ->
      GetHeader c "Authorization" = "Bearer " ++ extractToken c)
  /\ (extractToken c = "" <->
      GetHeader c "Authorization" = "Bearer " \/
      (HasPrefix (GetHeader c "Authorization") "Bearer " = false /\ Query c "token" = ""))
  /\ (extractToken c = "" <-> (AuthN' cfg c w).1 = missingToken).
Proof.
  intros Hs. split_and!.
  - apply extractToken_fallback.
  - intros Hp. rewrite (extractToken_bearer c Hp). by apply HasPrefix_split in Hp.
  - apply extractToken_empty.
  - split.
    + intros He. by rewrite AuthN_missing.
    + intros Ha. destruct (String.eqb_spec (extractToken c) "") as [|Hne]; [done|].
      destruct (parseToken' (extractToken c) cfg w) as [[token|e] w'] eqn:Hp.
      * rewrite (AuthN_parsed _ _ _ _ _ Hs Hne Hp) in Ha. simpl in Ha.
        destruct (negb (jwt.Valid token)); [discriminate|].
        destruct (negb (String.eqb (Audience cfg) "") && negb (validateAudience token (Audience cfg)));
          discriminate.
      * rewrite (AuthN_parse_error _ _ _ _ _ Hs Hne Hp) in Ha. discriminate.
Qed.

(** ** The algorithm allow-list *)

Lemma GetSigningMethod_Alg (alg : string) (m : jwt.SigningMethod) :
  jwt.GetSigningMethod alg = Some m -> jwt.Alg m = alg.
Proof.
  unfold jwt.GetSigningMethod. intros H.
  repeat match type of H with
         | (if ?b then _ else _) = _ => destruct b eqn:?
         end; simplify_eq; simpl; try done.
  - symmetry. by apply String.eqb_eq.
  - symmetry. by apply String.eqb_eq.
Qed.

Lemma not_in_allow_list (alg : string) :
  alg ≠ "RS256" -> existsb (String.eqb alg) ["RS256"] = false.
Proof. intros H. simpl. by destruct (String.eqb_spec alg "RS256"). Qed.

Lemma parseToken_unsupported (tokenStr : string) (cfg : Config) (w : World) seg alg :
  DecodeSegments tokenStr = Some seg ->
  jwt.segHeader seg !! "alg" = Some (JString alg) ->
  alg ≠ "RS256" ->
  parseToken' tokenStr cfg w = (inr (unsupportedAlgorithm alg), w).
Proof.
  intros Hd Ha Hne. unfold parseToken, jwt.Parse, unsupportedAlgorithm.
  rewrite Hd, Ha. destruct (jwt.GetSigningMethod alg) as [m|] eqn:Hm; [|done].
  rewrite (GetSigningMethod_Alg _ _ Hm), (not_in_allow_list _ Hne). done.
Qed.

Lemma withCache_unchanged {A} (j : JWKSCache) (m : M A) (a : A) (w : World) :
  (forall w0, m w0 = (a, w0)) -> withCache j m w = (a, w).
Proof. intros H. unfold withCache. rewrite H. by destruct w. Qed.

(** C3: a token whose header declares an algorithm other than the allowed
    RS256 (so also "none" and the HMAC family) is rejected with the
    algorithm error, and the world is left as it was: no [GetKey] call is
    recorded, no GET is issued, the cache is not touched. The key function
    by itself also refuses any non-RSA method before looking up a key. *)
Theorem unsupported_algorithm_rejected_before_lookup
    (tokenStr : string) (cfg : Config) (w : World) seg alg :
  DecodeSegments tokenStr = Some seg ->
  jwt.segHeader seg !! "alg" = Some (JString alg) ->
  alg ≠ "RS256" ->
  parseToken' tokenStr cfg w = (inr (unsupportedAlgorithm alg), w)
  /\ ValidateToken' tokenStr cfg w = (inr (InvalidToken (Some (unsupportedAlgorithm alg))), w)
  /\ (forall c, skipped cfg c = false -> extractToken c = tokenStr -> tokenStr ≠ "" ->
        AuthN' cfg c w = (invalidToken, w))
  /\ (forall token, (forall a, jwt.Method token ≠ jwt.SigningMethodRSA a) ->
        KeyFunc' token w = (inr (UnexpectedSigningMethod (jwt.Header token !! "alg")), w)).
Proof.
  intros Hd Ha Hne.
  pose proof (fun w => parseToken_unsupported tokenStr cfg w seg alg Hd Ha Hne) as Hp.
  split_and!.
  - apply Hp.
  - unfold ValidateToken. apply withCache_unchanged. intros w0.
    unfold bind. by rewrite Hp.
  - intros c Hs He Hn. subst tokenStr. by eapply AuthN_parse_error.
  - intros token Hm. unfold KeyFunc.
    destruct (jwt.Method token) eqn:Hmt; try done. by destruct (Hm alg0).
Qed.

(** ** Responses of [AuthN] to failed validations *)

Lemma Parse_valid (tokenStr : string) (cfg : Config) (w w' : World) token :
  parseToken' tokenStr cfg w = (inl token, w') -> jwt.Valid token = true.
Proof.
  unfold parseToken, jwt.Parse, bind, ret. intros H.
  repeat match type of H with
         | match ?x with _ => _ end _ = _ => destruct x eqn:?
         | match ?x with _ => _ end = _ => destruct x eqn:?
         | (let (_, _) := ?x in _) = _ => destruct x eqn:?
         | (if ?b then _ else _) _ = _ => destruct b eqn:?
         | (if ?b then _ else _) = _ => destruct b eqn:?
         end; simplify_eq; done.
Qed.

(** C2, amended: every failed validation is answered with status 401 and
    one of three messages. All failures raised while the token is parsed
    and verified (malformed, algorithm, key lookup, signature, issuer,
    expiry) share the message "invalid or expired token"; a missing token
    and an audience mismatch each have a message of their own. *)
Theorem AuthN_failure_responses (cfg : Config) (c : Context) (w : World) :
  skipped cfg c = false ->
  (forall status msg, (AuthN' cfg c w).1 = AbortWithStatusJSON status msg ->
     status = 401 /\
     (msg = "missing or invalid Authorization header" \/
      msg = "invalid or expired token" \/ msg = "token audience mismatch"))
  /\ (extractToken c = "" -> AuthN' cfg c w = (missingToken, w))
  /\ (forall e w', extractToken c ≠ "" ->
        parseToken' (extractToken c) cfg w = (inr e, w') ->
        AuthN' cfg c w = (invalidToken, w'))
  /\ (forall token w', extractToken c ≠ "" ->
        parseToken' (extractToken c) cfg w = (inl token, w') ->
        Audience cfg ≠ "" -> validateAudience token (Audience cfg) = false ->
        AuthN' cfg c w = (audienceMismatch, w')).
Proof.
  intros Hs. split_and!.
  - intros status msg H.
    destruct (String.eqb_spec (extractToken c) "") as [He|Hne].
    { rewrite (AuthN_missing _ _ _ Hs He) in H. injection H as <- <-. eauto. }
    destruct (parseToken' (extractToken c) cfg w) as [[token|e] w'] eqn:Hp.
    + rewrite (AuthN_parsed _ _ _ _ _ Hs Hne Hp) in H. simpl in H.
      destruct (negb (jwt.Valid token)); [injection H as <- <-; eauto|].
      destruct (negb (String.eqb (Audience cfg) "") && negb (validateAudience token (Audience cfg)));
        [injection H as <- <-; eauto 6|discriminate].
    + rewrite (AuthN_parse_error _ _ _ _ _ Hs Hne Hp) in H. injection H as <- <-. eauto.
  - by apply AuthN_missing.
  - intros e w' Hne Hp. by eapply AuthN_parse_error.
  - intros token w' Hne Hp Ha Hv.
    rewrite (AuthN_parsed _ _ _ _ _ Hs Hne Hp), (Parse_valid _ _ _ _ _ Hp), Hv. simpl.
    by destruct (String.eqb_spec (Audience cfg) "").
Qed.

(** ** The key cache, one caller at a time *)

Lemma refresh_recent (w : World) :
  sinceLastFetch w < 30 * Second ->
  (refresh' w).1 = None /\ cache (refresh' w).2 = cache w /\
  gets (refresh' w).2 = gets w /\ trace (refresh' w).2 = trace w.
Proof.
  unfold sinceLastFetch. intros H. unfold refresh, bind, getCache, Since, Now, ret. simpl.
  destruct (Z.ltb_spec (Sub (clock w (ticks w)) (lastFetch (cache w))) (30 * Second)); [done|lia].
Qed.

Lemma refresh_fetches (w : World) :
  30 * Second <= sinceLastFetch w ->
  (refresh' w).1 = fetchError (endpoint w (gets w)) /\
  gets (refresh' w).2 = S (gets w) /\
  trace (refresh' w).2 = (trace w ++ [EvHTTPGet (jwksURL (cache w))])%list /\
  (forall e, fetchError (endpoint w (gets w)) = Some e -> cache (refresh' w).2 = cache w) /\
  (forall ks, endpoint w (gets w) = Response StatusOK (Some ks) ->
     cache (refresh' w).2 =
       {| jwksURL := jwksURL (cache w); keys := buildKeys DecodeString ks;
          lastFetch := clock w (S (ticks w)); cacheTTL := cacheTTL (cache w) |}).
Proof.
  unfold sinceLastFetch. intros H.
  unfold refresh, bind, getCache, Since, Now, httpGet, putCache, ret, fetchError. simpl.
  destruct (Z.ltb_spec (Sub (clock w (ticks w)) (lastFetch (cache w))) (30 * Second)); [lia|].
  simpl. destruct (endpoint w (gets w)) as [|status [ks|]]; simpl.
  - split_and!; done.
  - destruct (Z.eqb_spec status StatusOK) as [->|Hne]; simpl.
    + split_and!; [done..|]. intros ks' [= <-]. done.
    + split_and!; [done..|]. intros ks' [= -> _]. done.
  - destruct (Z.eqb_spec status StatusOK) as [->|Hne]; simpl; split_and!; done.
Qed.

Lemma refresh_error_keeps_cache (w : World) (e : refreshError) :
  (refresh' w).1 = Some e ->
  cache (refresh' w).2 = cache w /\ fetchError (endpoint w (gets w)) = Some e.
Proof.
  intros He. destruct (Z.lt_ge_cases (sinceLastFetch w) (30 * Second)) as [H|H].
  - destruct (refresh_recent w H) as (Hr & _). congruence.
  - destruct (refresh_fetches w H) as (Hr & _ & _ & Hc & _). rewrite Hr in He. eauto.
Qed.

Lemma fetchAndLookup_unfold (kid : string) (w : World) :
  fetchAndLookup' kid w =
    match (refresh' w).1 with
    | Some e => (inr (RefreshFailed e), (refresh' w).2)
    | None =>
        (match keys (cache (refresh' w).2) !! kid with
         | Some key => inl key
         | None => inr (KeyNotFound kid)
         end, (refresh' w).2)
    end.
Proof.
  unfold fetchAndLookup, bind, getCache, ret.
  destruct (refresh' w) as [[e|] w']; simpl; [done|].
  by destruct (keys (cache w') !! kid).
Qed.

Lemma GetKey_absent (kid : string) (w : World) :
  keys (cache w) !! kid = None ->
  GetKey' kid w = fetchAndLookup' kid (emitted (EvGetKey kid) w).
Proof.
  intros H. unfold GetKey, bind, getCache, emit, emitted. simpl. by rewrite H.
Qed.

Lemma fetchAndLookup_recent (kid : string) (w : World) :
  sinceLastFetch w < 30 * Second ->
  (fetchAndLookup' kid w).1 =
    match keys (cache w) !! kid with
    | Some key => inl key
    | None => inr (KeyNotFound kid)
    end /\
  gets (fetchAndLookup' kid w).2 = gets w /\
  cache (fetchAndLookup' kid w).2 = cache w.
Proof.
  intros H. destruct (refresh_recent w H) as (Hr & Hc & Hg & _).
  rewrite fetchAndLookup_unfold, Hr. simpl. by rewrite Hc.
Qed.

Lemma fetchAndLookup_fetches (kid : string) (w : World) :
  30 * Second <= sinceLastFetch w -> gets (fetchAndLookup' kid w).2 = S (gets w).
Proof.
  intros H. destruct (refresh_fetches w H) as (_ & Hg & _).
  rewrite fetchAndLookup_unfold. by destruct ((refresh' w).1).
Qed.

Lemma fetchAndLookup_failed (kid : string) (w : World) (e : refreshError) :
  fetchError (endpoint w (gets w)) = Some e ->
  gets (fetchAndLookup' kid w).2 ≠ gets w ->
  (fetchAndLookup' kid w).1 = inr (RefreshFailed e) /\
  cache (fetchAndLookup' kid w).2 = cache w.
Proof.
  intros He Hg. destruct (Z.lt_ge_cases (sinceLastFetch w) (30 * Second)) as [H|H].
  - destruct (fetchAndLookup_recent kid w H) as (_ & Hg' & _). done.
  - destruct (refresh_fetches w H) as (Hr & _ & _ & Hc & _).
    rewrite fetchAndLookup_unfold, Hr, He. simpl. eauto.
Qed.

(** [GetKey] either answers from the cache on the fast path or runs the
    slow path in a world that differs only by the recorded call and,
    when the key was found but stale, one clock reading. *)
Lemma GetKey_paths (kid : string) (w : World) :
  (exists key, (GetKey' kid w).1 = inl key /\ keys (cache w) !! kid = Some key /\
               cache (GetKey' kid w).2 = cache w /\ gets (GetKey' kid w).2 = gets w)
  \/ (exists w1, GetKey' kid w = fetchAndLookup' kid w1 /\
                 cache w1 = cache w /\ gets w1 = gets w /\ endpoint w1 = endpoint w /\
                 clock w1 = clock w /\
                 (ticks w1 = ticks w /\ keys (cache w) !! kid = None \/
                  ticks w1 = S (ticks w) /\ cacheTTL (cache w) <= sinceLastFetch w)).
Proof.
  unfold GetKey, bind, getCache, emit, Since, Now, ret, sinceLastFetch. simpl.
  destruct (keys (cache w) !! kid) as [key|] eqn:Hk; simpl.
  - destruct (Z.ltb_spec (Sub (clock w (ticks w)) (lastFetch (cache w))) (cacheTTL (cache w))).
    + left. exists key. done.
    + right. eexists. split; [done|]. simpl. split_and!; [done..|]. by right.
  - right. eexists. split; [done|]. simpl. split_and!; [done..|]. by left.
Qed.

(** C5: when the GET of a refresh fails (transport error, status other
    than 200, body not decodable), [refresh] returns that error and the
    cache (key mapping and last-fetch instant) is exactly as before; the
    [GetKey] call that triggered the GET returns the refresh failure. *)
Theorem failed_refresh_keeps_cache (kid : string) (w : World) (e : refreshError) :
  fetchError (endpoint w (gets w)) = Some e ->
  (gets (refresh' w).2 ≠ gets w ->
     (refresh' w).1 = Some e /\ cache (refresh' w).2 = cache w)
  /\ (gets (GetKey' kid w).2 ≠ gets w ->
      (GetKey' kid w).1 = inr (RefreshFailed e) /\
      keys (cache (GetKey' kid w).2) = keys (cache w) /\
      lastFetch (cache (GetKey' kid w).2) = lastFetch (cache w)).
Proof.
  intros He. split.
  - intros Hg. destruct (Z.lt_ge_cases (sinceLastFetch w) (30 * Second)) as [H|H].
    + destruct (refresh_recent w H) as (_ & _ & Hg' & _). done.
    + destruct (refresh_fetches w H) as (Hr & _ & _ & Hc & _). rewrite Hr. eauto.
  - intros Hg. destruct (GetKey_paths kid w) as [(key & _ & _ & _ & Hg')|(w1 & Hp & Hc & Hg1 & He1 & _)].
    + done.
    + rewrite Hp in Hg |- *. rewrite <- Hg1 in Hg. rewrite <- He1, <- Hg1 in He.
      destruct (fetchAndLookup_failed kid w1 e He Hg) as [Hr Hc']. rewrite Hr, Hc', Hc. done.
Qed.

(** C4, amended: on the slow path the re-check under the write lock
    compares the age of the last fetch with a fixed 30 seconds, not with the
    TTL. When the last fetch is less than 30 seconds old no GET is issued
    and a key id absent from the mapping yields the not-found error with the
    cache unchanged; otherwise a GET is issued, also for a key id absent
    from a mapping that is still within its TTL. *)
Theorem GetKey_recheck_window (kid : string) (w : World) :
  (sinceLastFetch w < 30 * Second ->
     gets (fetchAndLookup' kid w).2 = gets w /\ cache (fetchAndLookup' kid w).2 = cache w)
  /\ (30 * Second <= sinceLastFetch w -> gets (fetchAndLookup' kid w).2 = S (gets w))
  /\ (keys (cache w) !! kid = None ->
      (sinceLastFetch w < 30 * Second ->
         (GetKey' kid w).1 = inr (KeyNotFound kid) /\
         gets (GetKey' kid w).2 = gets w /\ cache (GetKey' kid w).2 = cache w)
      /\ (30 * Second <= sinceLastFetch w -> gets (GetKey' kid w).2 = S (gets w))).
Proof.
  split_and!.
  - intros H. by destruct (fetchAndLookup_recent kid w H) as (_ & ? & ?).
  - apply fetchAndLookup_fetches.
  - intros Hk. rewrite (GetKey_absent kid w Hk). split.
    + intros H. destruct (fetchAndLookup_recent kid (emitted (EvGetKey kid) w) H) as (Hr & Hg & Hc).
      rewrite Hr, Hg, Hc. unfold emitted, emit. simpl. by rewrite Hk.
    + intros H. by rewrite (fetchAndLookup_fetches kid (emitted (EvGetKey kid) w) H).
Qed.

(** ** Accepted tokens *)

Lemma Validate_ok (m : gmap string JSON) (now exp : Z) (iss : string) :
  m !! "iss" = Some (JString iss) -> iss ≠ "" ->
  m !! "exp" = Some (JNumber exp) -> now < exp * Second ->
  m !! "nbf" = None ->
  jwt.Validate m now iss = [].
Proof.
  intros Hi Hne He Hlt Hn.
  unfold jwt.Validate, jwt.verifyExpiresAt, jwt.verifyNotBefore, jwt.verifyIssuer,
    jwt.parseNumericDate, jwt.parseString.
  rewrite Hi, He, Hn.
  destruct (Z.eqb_spec exp 0) as [->|_]; simpl.
  - destruct (String.eqb_spec iss "") as [|_]; [done|]. by rewrite String.eqb_refl.
  - destruct (Z.ltb_spec now (exp * Second)); [|lia]. simpl.
    destruct (String.eqb_spec iss "") as [|_]; [done|]. by rewrite String.eqb_refl.
Qed.

Lemma parseToken_accepts (tokenStr : string) (cfg : Config) (w w1 : World) seg kid key :
  DecodeSegments tokenStr = Some seg ->
  jwt.segHeader seg !! "alg" = Some (JString "RS256") ->
  jwt.segHeader seg !! "kid" = Some (JString kid) ->
  GetKey' kid w = (inl key, w1) ->
  Verify (jwt.SigningMethodRSA "RS256") (jwt.segText seg) (jwt.segSignature seg) key = true ->
  jwt.Validate (jwt.segClaims seg) (clock w1 (ticks w1)) (IssuerURL cfg) = [] ->
  exists token w2,
    parseToken' tokenStr cfg w = (inl token, w2) /\
    jwt.Claims token = jwt.segClaims seg /\ jwt.Valid token = true /\ cache w2 = cache w1.
Proof.
  intros Hd Ha Hk Hg Hv Hc.
  unfold parseToken, jwt.Parse, KeyFunc, bind, ret, Now. rewrite Hd, Ha. simpl.
  rewrite Hk, Hg, Hv. simpl. rewrite Hc. eexists _, _. split_and!; reflexivity.
Qed.

(** The part of C1 the code delivers: an RS256 token whose key resolves,
    whose signature verifies, and whose issuer, expiry and audience pass is
    accepted, and subject, email, organization id and roles of the bound
    claims are those of the payload, empty when absent or of another type. *)
Lemma AuthN_accepts (cfg : Config) (c : Context) (w w1 : World) seg kid key :
  skipped cfg c = false -> extractToken c ≠ "" ->
  DecodeSegments (extractToken c) = Some seg ->
  jwt.segHeader seg !! "alg" = Some (JString "RS256") ->
  jwt.segHeader seg !! "kid" = Some (JString kid) ->
  GetKey' kid w = (inl key, w1) ->
  Verify (jwt.SigningMethodRSA "RS256") (jwt.segText seg) (jwt.segSignature seg) key = true ->
  jwt.Validate (jwt.segClaims seg) (clock w1 (ticks w1)) (IssuerURL cfg) = [] ->
  (Audience cfg = "" \/
   jwt.segClaims seg !! "aud" = Some (JString (Audience cfg)) \/
   exists auds, jwt.segClaims seg !! "aud" = Some (JArray auds) /\ JString (Audience cfg) ∈ auds) ->
  exists cl,
    (AuthN' cfg c w).1 = Next (SetClaims c (Some cl)) /\
    models.Sub cl = getStringClaim (jwt.segClaims seg) "sub" /\
    models.Email cl = getStringClaim (jwt.segClaims seg) "email" /\
    models.OrgID cl = getStringClaim (jwt.segClaims seg) "urn:zitadel:iam:org:id" /\
    models.Roles cl =
      match jwt.segClaims seg !! "urn:zitadel:iam:org:project:roles" with
      | Some (JObject roles) => Some roles
      | _ => None
      end /\
    models.OrgDomain cl = "".
Proof.
  intros Hs Hne Hd Ha Hk Hg Hv Hc Haud.
  destruct (parseToken_accepts _ cfg _ _ _ _ _ Hd Ha Hk Hg Hv Hc) as (token & w2 & Hp & Hcl & Hval & _).
  exists (buildClaims (jwt.segClaims seg)).
  rewrite (AuthN_parsed _ _ _ _ _ Hs Hne Hp), Hval, Hcl. simpl.
  split; [|done].
  assert (negb (String.eqb (Audience cfg) "") && negb (validateAudience token (Audience cfg))
          = false) as ->; [|done].
  destruct (String.eqb_spec (Audience cfg) "") as [|Hn]; [done|]. simpl.
  apply negb_false_iff. unfold validateAudience. rewrite Hcl.
  destruct Haud as [?|[->|(auds & -> & Hin)]]; [done|apply String.eqb_refl|].
  apply existsb_exists. exists (JString (Audience cfg)).
  split; [by apply list_elem_of_In|apply String.eqb_refl].
Qed.

End AuthProperties.

(** ** The properties above on the sample provider *)

Lemma extractToken_fallback_and_empty_witness :
  skipped demoCfg emptyBearerRequest = false /\
  (extractToken emptyBearerRequest = "" <->
   (AuthN demoDecodeString demoDecodeSegments demoVerify demoCfg emptyBearerRequest demoWorld).1
   = missingToken).
Proof.
  split; [reflexivity|].
  apply (extractToken_fallback_and_empty demoDecodeString demoDecodeSegments demoVerify
           demoCfg emptyBearerRequest demoWorld).
  reflexivity.
Defined.

Lemma unsupported_algorithm_rejected_before_lookup_witness :
  demoDecodeSegments "token-none" = Some (demoSegments "none" "proj1" 1900003600) /\
  ValidateToken demoDecodeString demoDecodeSegments demoVerify "token-none" demoCfg demoWorld
  = (inr (InvalidToken (Some (unsupportedAlgorithm "none"))), demoWorld).
Proof.
  split; [reflexivity|].
  apply (unsupported_algorithm_rejected_before_lookup demoDecodeString demoDecodeSegments
           demoVerify "token-none" demoCfg demoWorld
           (demoSegments "none" "proj1" 1900003600) "none");
    [reflexivity | reflexivity | discriminate].
Defined.

Lemma AuthN_failure_responses_witness :
  skipped demoCfg (bearerRequest "token-expired") = false /\
  forall status msg,
    (AuthN demoDecodeString demoDecodeSegments demoVerify demoCfg
       (bearerRequest "token-expired") demoWorld).1 = AbortWithStatusJSON status msg ->
    status = 401 /\
    (msg = "missing or invalid Authorization header" \/
     msg = "invalid or expired token" \/ msg = "token audience mismatch").
Proof.
  split; [reflexivity|].
  apply (AuthN_failure_responses demoDecodeString demoDecodeSegments demoVerify
           demoCfg (bearerRequest "token-expired") demoWorld).
  reflexivity.
Defined.

(** C2 as stated fails: a request without token, one with an expired token
    and one with a token for another audience all fail validation, and the
    three responses differ; the last one names the check that failed. *)
Lemma AuthN_failure_messages_differ_counterexample :
  demoRespond demoContext = AbortWithStatusJSON 401 "missing or invalid Authorization header"
  /\ demoRespond (bearerRequest "token-expired")
     = AbortWithStatusJSON 401 "invalid or expired token"
  /\ demoRespond (bearerRequest "token-other-aud")
     = AbortWithStatusJSON 401 "token audience mismatch"
  /\ demoRespond demoContext ≠ demoRespond (bearerRequest "token-expired")
  /\ demoRespond (bearerRequest "token-expired") ≠ demoRespond (bearerRequest "token-other-aud").
Proof.
  split_and!; [vm_compute; reflexivity..| |]; vm_compute; discriminate.
Qed.

Lemma failed_refresh_keeps_cache_witness :
  fetchError (endpoint outageWorld (gets outageWorld)) = Some FetchFailed /\
  gets (GetKey demoDecodeString "k1" outageWorld).2 ≠ gets outageWorld /\
  (GetKey demoDecodeString "k1" outageWorld).1 = inr (RefreshFailed FetchFailed) /\
  keys (cache (GetKey demoDecodeString "k1" outageWorld).2) = keys staleCache /\
  lastFetch (cache (GetKey demoDecodeString "k1" outageWorld).2) = lastFetch staleCache.
Proof.
  assert (gets (GetKey demoDecodeString "k1" outageWorld).2 ≠ gets outageWorld) as Hg
    by (vm_compute; discriminate).
  split; [reflexivity|]. split; [exact Hg|].
  apply (failed_refresh_keeps_cache demoDecodeString "k1" outageWorld FetchFailed);
    [reflexivity | exact Hg].
Defined.

(** C4 as stated fails: the key id "k9" is absent from a mapping fetched
    one minute ago (TTL one hour), and [GetKey] issues a GET all the same. *)
Lemma GetKey_fresh_miss_fetches_counterexample :
  keys (cache freshWorld) !! "k9" = None
  /\ sinceLastFetch freshWorld < cacheTTL (cache freshWorld)
  /\ (GetKey demoDecodeString "k9" freshWorld).1 = inr (KeyNotFound "k9")
  /\ gets (GetKey demoDecodeString "k9" freshWorld).2 = S (gets freshWorld)
  /\ trace (GetKey demoDecodeString "k9" freshWorld).2
     = [EvGetKey "k9"; EvHTTPGet "https://idp.example/oauth/v2/keys"].
Proof. split_and!; vm_compute; reflexivity. Qed.

Lemma GetKey_recheck_window_witness :
  keys (cache freshWorld) !! "k9" = None /\
  30 * Second <= sinceLastFetch freshWorld /\
  gets (GetKey demoDecodeString "k9" freshWorld).2 = S (gets freshWorld).
Proof.
  split; [reflexivity|]. split; [vm_compute; discriminate|].
  apply (GetKey_recheck_window demoDecodeString "k9" freshWorld);
    [reflexivity | vm_compute; discriminate].
Defined.

(** C1 on the sample token: the payload names the organization's primary
    domain, the token is accepted by [ValidateToken] and by [AuthN], and the
    claims they return carry subject, email, organization id and roles of
    the payload but an empty [OrgDomain]. *)
Theorem ValidateToken_leaves_org_domain_empty :
  demoPayload "proj1" 1900003600 !! "urn:zitadel:iam:user:resourceowner:primary_domain"
  = Some (JString "acme.example")
  /\ (exists cl,
        (ValidateToken demoDecodeString demoDecodeSegments demoVerify
           "token-valid" demoCfg demoWorld).1 = inl cl
        /\ models.Sub cl = "user-1" /\ models.Email cl = "user-1@acme.example"
        /\ models.OrgID cl = "org-1"
        /\ models.Roles cl = Some {[ "admin" := JObject ∅ ]}
        /\ models.OrgDomain cl = "")
  /\ (exists c, demoRespond (bearerRequest "token-valid") = Next c
        /\ OrgID c = "org-1" /\ HasRole c "admin" = true /\ OrgDomain c = "").
Proof.
  split_and!.
  - reflexivity.
  - eexists. split_and!; [vm_compute; reflexivity|reflexivity..].
  - eexists. split_and!; [vm_compute; reflexivity|reflexivity..].
Qed.

(** ** Concurrent callers *)

Section ConcurrentProperties.

Import Concurrent.

Variable DecodeString : string -> option (list Z).

Lemma count_insert (f : string * pc -> bool) (cs : list (string * pc)) (i : nat) c c' :
  cs !! i = Some c ->
  (count f (<[i := c']> cs) + (if f c then 1 else 0)
   = count f cs + (if f c' then 1 else 0))%nat.
Proof.
  revert i. induction cs as [|x cs IH]; intros [|i] H; simpl in *; try done.
  - simplify_eq. lia.
  - specialize (IH i H). lia.
Qed.

Lemma count_le (f g : string * pc -> bool) (cs : list (string * pc)) :
  (forall c, f c = true -> g c = true) -> (count f cs <= count g cs)%nat.
Proof.
  intros Hfg. induction cs as [|x cs IH]; simpl; [lia|].
  destruct (f x) eqn:Hf; [rewrite (Hfg x Hf)|destruct (g x)]; lia.
Qed.

Lemma count_replicate_false (f : string * pc -> bool) (n : nat) c :
  f c = false -> count f (replicate n c) = 0%nat.
Proof. intros H. induction n as [|n IH]; simpl; [done|]. by rewrite H, IH. Qed.

Lemma fetching_holds (c : string * pc) : isFetching c = true -> holdsWriteLock c = true.
Proof. destruct c as [kid []]; done. Qed.

Lemma count_pos (f : string * pc -> bool) (cs : list (string * pc)) (i : nat) c :
  cs !! i = Some c -> f c = true -> (1 <= count f cs)%nat.
Proof.
  revert i. induction cs as [|x cs IH]; intros [|i] H Hf; simpl in *; try done.
  - simplify_eq. rewrite Hf. lia.
  - specialize (IH i H Hf). lia.
Qed.

(** A caller that holds the write lock without fetching excludes any
    fetching caller once the lock invariant holds. *)
Lemma holder_excludes_fetching (s : State) (i : nat) kid p :
  lockInv s -> callers s !! i = Some (kid, p) ->
  holdsWriteLock (kid, p) = true -> isFetching (kid, p) = false ->
  inFlight s = 0%nat /\ writer s = true.
Proof.
  unfold lockInv, inFlight. intros Hl Hi Hh Hf.
  pose proof (count_insert holdsWriteLock (callers s) i (kid, p) (kid, Start) Hi) as H1.
  pose proof (count_insert isFetching (callers s) i (kid, p) (kid, Start) Hi) as H2.
  pose proof (count_le isFetching holdsWriteLock (<[i := (kid, Start)]> (callers s)) fetching_holds).
  rewrite Hh in H1. rewrite Hf in H2. simpl in *.
  destruct (writer s); split; try done; lia.
Qed.

Lemma fetching_is_alone (s : State) (i : nat) kid n :
  lockInv s -> callers s !! i = Some (kid, Fetching n) ->
  inFlight s = 1%nat /\ writer s = true.
Proof.
  unfold lockInv, inFlight. intros Hl Hi.
  pose proof (count_pos isFetching (callers s) i _ Hi eq_refl).
  pose proof (count_le isFetching holdsWriteLock (callers s) fetching_holds).
  destruct (writer s); split; try done; lia.
Qed.

Ltac step_cases H :=
  repeat match type of H with
         | match ?x with _ => _ end = Some _ => destruct x eqn:?
         | (if ?b then _ else _) = Some _ => destruct b eqn:?
         | Some _ = Some _ => injection H as <-
         | None = Some _ => discriminate H
         end.

Lemma step_lockInv (s s' : State) (a : Action) :
  lockInv s -> step DecodeString s a = Some s' -> lockInv s'.
Proof.
  intros Hl H. destruct a as [i|d]; simpl in H; [|by injection H as <-].
  destruct (callers s !! i) as [[kid p]|] eqn:Hi; [|done].
  assert (forall p' (k : nat),
    k + (if holdsWriteLock (kid, p) then 1 else 0)
    = (if writer s then 1 else 0) + (if holdsWriteLock (kid, p') then 1 else 0) ->
    count holdsWriteLock (<[i := (kid, p')]> (callers s)) = k)%nat as Hupd.
  { intros p' k He. pose proof (count_insert holdsWriteLock (callers s) i _ (kid, p') Hi).
    unfold lockInv in Hl. lia. }
  assert (holdsWriteLock (kid, p) = true -> isFetching (kid, p) = false -> writer s = true) as Hw.
  { intros Hh Hf. by destruct (holder_excludes_fetching s i kid p Hl Hi Hh Hf). }
  assert (forall n, p = Fetching n -> writer s = true) as Hwf.
  { intros n ->. by destruct (fetching_is_alone s i kid n Hl Hi). }
  destruct p; simpl in H; step_cases H; unfold lockInv, setCaller; simpl;
    apply Hupd; simpl;
    try (apply orb_false_iff in Heqb as [Heqb _]);
    try rewrite Heqb; try rewrite (Hw eq_refl eq_refl); try rewrite (Hwf _ eq_refl);
    try done; try (by destruct (writer s)).
  - by destruct (keys (jwks s) !! kid), (Sub (now s) (lastFetch (jwks s)) <? cacheTTL (jwks s)),
      (writer s).
  - by destruct err.
Qed.

Lemma run_invariant (P : State -> Prop) (schedule : list Action) (s s' : State) :
  (forall s a s', P s -> step DecodeString s a = Some s' -> P s') ->
  P s -> run DecodeString s schedule = Some s' -> P s'.
Proof.
  intros Hstep. revert s. induction schedule as [|a rest IH]; intros s Hs H; simpl in H.
  - by injection H as <-.
  - destruct (step DecodeString s a) as [s1|] eqn:H1; [|done]. eauto.
Qed.

Lemma init_lockInv (j : JWKSCache) (t0 : Z) ep (n : nat) (kid : string) :
  lockInv (init j t0 ep n kid).
Proof. unfold lockInv, init. simpl. by apply count_replicate_false. Qed.

Lemma Sub_lt_30 (t u : Z) : Sub t u < 30 * Second <-> t - u < 30 * Second.
Proof. unfold Sub, maxDuration, minDuration, Second. lia. Qed.

Lemma step_now_mono (s s' : State) (a : Action) :
  step DecodeString s a = Some s' -> now s <= now s' /\ endpoint s' = endpoint s.
Proof.
  intros H. destruct a as [i|d]; simpl in H.
  - destruct (callers s !! i) as [[kid p]|]; [|done].
    destruct p; simpl in H; step_cases H; simpl; split; done || lia.
  - injection H as <-. simpl. split; [lia|done].
Qed.

Lemma step_onceInv (t0 : Z) (s s' : State) (a : Action) :
  (forall k, exists ks, endpoint s k = Response StatusOK (Some ks)) ->
  lockInv s -> t0 <= now s -> now s - t0 < 30 * Second ->
  onceInv t0 s -> step DecodeString s a = Some s' -> onceInv t0 s'.
Proof.
  intros Hep Hl Ht Hw Ho H. destruct a as [i|d]; simpl in H; [|by injection H as <-].
  destruct (callers s !! i) as [[kid p]|] eqn:Hi; [|done].
  assert (forall p',
    count isFetching (<[i := (kid, p')]> (callers s)) + (if isFetching (kid, p) then 1 else 0)
    = count isFetching (callers s) + (if isFetching (kid, p') then 1 else 0))%nat as Hupd.
  { intros p'. apply count_insert. done. }
  unfold onceInv, inFlight in *.
  destruct p; simpl in H.
  - step_cases H. simpl. unfold setCaller. specialize (Hupd FastCheck). simpl in Hupd. lia.
  - injection H as <-. simpl. unfold setCaller.
    match goal with |- context [ (kid, ?q) ] => specialize (Hupd q) end.
    destruct (keys (jwks s) !! kid);
      [destruct (Sub (now s) (lastFetch (jwks s)) <? cacheTTL (jwks s))|];
      simpl in Hupd; lia.
  - step_cases H. simpl. unfold setCaller. specialize (Hupd Locked). simpl in Hupd. lia.
  - destruct (holder_excludes_fetching s i kid Locked Hl Hi eq_refl eq_refl) as [Hf _].
    unfold inFlight in Hf.
    destruct (Z.ltb_spec (Sub (now s) (lastFetch (jwks s))) (30 * Second)) as [Hlt|Hge];
      injection H as <-; simpl; unfold setCaller.
    + specialize (Hupd (Unlocking None)). simpl in Hupd. lia.
    + specialize (Hupd (Fetching (gets s))). simpl in Hupd.
      assert (30 * Second <= now s - lastFetch (jwks s)) as Hage.
      { destruct (Z.lt_ge_cases (now s - lastFetch (jwks s)) (30 * Second)) as [Hc|Hc]; [|done].
        apply Sub_lt_30 in Hc. lia. }
      lia.
  - destruct (fetching_is_alone s i kid n Hl Hi) as [Hf _]. unfold inFlight in Hf.
    destruct (Hep n) as [ks Hks]. rewrite Hks in H. simpl in H.
    injection H as <-. simpl. unfold setCaller.
    specialize (Hupd (Unlocking None)). simpl in Hupd. lia.
  - injection H as <-. simpl. unfold setCaller.
    match goal with |- context [ (kid, ?q) ] => specialize (Hupd q) end.
    destruct err; simpl in Hupd; lia.
  - step_cases H. simpl. unfold setCaller. specialize (Hupd FinalLookup). simpl in Hupd. lia.
  - injection H as <-. simpl. unfold setCaller.
    match goal with |- context [ (kid, ?q) ] => specialize (Hupd q) end.
    simpl in Hupd. lia.
  - done.
Qed.

Lemma step_runInv (t0 : Z) ep (s s' : State) (a : Action) :
  runInv t0 ep s -> step DecodeString s a = Some s' -> runInv t0 ep s'.
Proof.
  intros (Hl & Ht & He & Ho) H.
  destruct (step_now_mono s s' a H) as [Hm He'].
  split_and!.
  - by eapply step_lockInv.
  - lia.
  - congruence.
  - intros Hep Hw. eapply step_onceInv; [..|exact H]; try done.
    + by rewrite He.
    + lia.
    + apply Ho; [done|lia].
Qed.

(** C6, amended: on every schedule of [n] callers asking for the same key
    id, at most one GET is in flight at any time. If moreover every GET is
    answered with a decodable 200 response and less than 30 seconds have
    passed since the callers started, at most one GET has been issued. *)
Theorem at_most_one_fetch_in_flight
    (j : JWKSCache) (t0 : Z) (ep : nat -> HTTPResult) (n : nat) (kid : string)
    (schedule : list Action) (s : State) :
  run DecodeString (init j t0 ep n kid) schedule = Some s ->
  (inFlight s <= 1)%nat
  /\ ((forall k, exists ks, ep k = Response StatusOK (Some ks)) ->
      now s - t0 < 30 * Second -> (gets s <= 1)%nat).
Proof.
  intros H.
  assert (runInv t0 ep s) as (Hl & Ht & He & Ho).
  { eapply (run_invariant (runInv t0 ep)); [intros; by eapply step_runInv| |exact H].
    split_and!; [apply init_lockInv|simpl; lia|done|].
    intros _ _. left. split; [done|]. unfold inFlight, init. simpl.
    by apply count_replicate_false. }
  split.
  - unfold lockInv in Hl. unfold inFlight.
    pose proof (count_le isFetching holdsWriteLock (callers s) fetching_holds).
    destruct (writer s); lia.
  - intros Hep Hw. specialize (Ho Hep Hw). unfold onceInv in Ho. lia.
Qed.

End ConcurrentProperties.

Lemma at_most_one_fetch_in_flight_witness :
  Concurrent.run demoDecodeString healthyStart outageSchedule <> None /\
  forall s, Concurrent.run demoDecodeString healthyStart outageSchedule = Some s ->
    (Concurrent.inFlight s <= 1)%nat /\ (Concurrent.gets s <= 1)%nat.
Proof.
  split; [vm_compute; discriminate|].
  intros s H.
  destruct (at_most_one_fetch_in_flight demoDecodeString staleCache demoNow
              (fun _ => Response 200 (Some [demoJWK])) 2 "k1" outageSchedule s H) as [Hf Hg].
  split; [exact Hf|]. apply Hg.
  - intros k. exists [demoJWK]. reflexivity.
  - vm_compute in H. injection H as <-. vm_compute. reflexivity.
Defined.

(** C6 as stated fails: with the endpoint down, two callers that overlap
    on the same stale key id each issue a GET, one after the other, though
    no time passes between them. *)
Lemma failed_fetch_is_repeated_counterexample :
  option_map Concurrent.gets (Concurrent.run demoDecodeString outageStart outageSchedule)
  = Some 2%nat.
Proof. vm_compute. reflexivity. Qed.

(** ** The two models of [GetKey] agree *)

(** A single caller scheduled alone, the clock standing still, ends with
    the result, the cache and the number of GETs of the sequential
    [GetKey], and with both locks released. *)
Lemma solo_caller_agrees (DecodeString : string -> option (list Z))
    (w : World) (t : Z) (kid : string) :
  (forall k, clock w k = t) ->
  let s := runCaller DecodeString 9 0 (soloStart w t kid) in
  Concurrent.callers s = [(kid, Concurrent.Done (GetKey DecodeString kid w).1)]
  /\ Concurrent.jwks s = cache (GetKey DecodeString kid w).2
  /\ (gets w + Concurrent.gets s)%nat = gets (GetKey DecodeString kid w).2
  /\ Concurrent.readers s = 0%nat /\ Concurrent.writer s = false.
Proof.
  intros Hclock.
  unfold GetKey, fetchAndLookup, refresh, bind, getCache, emit, Since, Now, httpGet,
    putCache, ret, soloStart.
  destruct (keys (cache w) !! kid) as [key|] eqn:Hk;
  destruct (Sub t (lastFetch (cache w)) <? cacheTTL (cache w)) eqn:Httl;
  destruct (Sub t (lastFetch (cache w)) <? 30 * Second) eqn:H30;
  destruct (endpoint w (gets w)) as [|status [ks|]] eqn:Hep;
  try destruct (status =? StatusOK) eqn:Hst;
  try destruct (buildKeys DecodeString ks !! kid) as [key'|] eqn:Hk';
  repeat (progress (simpl; unfold Concurrent.setCaller;
                    rewrite ?Hclock, ?Hk, ?Httl, ?H30, ?Nat.add_0_r, ?Hep, ?Hst, ?Hk'));
  split_and!; try done; lia.
Qed.

(** * Further properties of the code *)

(** ** Access codes (invitation.go) *)

Lemma Split_nonempty (s : string) (sep : ascii) : Split s sep ≠ [].
Proof.
  destruct s as [|c s]; simpl; [done|].
  destruct (Ascii.eqb c sep); [done|]. by destruct (Split s sep).
Qed.

Lemma Split_noSep (s : string) (sep : ascii) : noSep sep s -> Split s sep = [s].
Proof.
  unfold noSep. induction s as [|c s IH]; simpl; intros H; [done|].
  inversion H as [|? ? Hc Hs]; subst. rewrite Hc, (IH Hs). done.
Qed.

Lemma Split_append (a rest : string) (sep : ascii) :
  noSep sep a -> Split (a ++ String sep rest) sep = a :: Split rest sep.
Proof.
  unfold noSep. induction a as [|c a IH]; intros H.
  - change (Split (String sep rest) sep = "" :: Split rest sep). simpl.
    by rewrite Ascii.eqb_refl.
  - simpl in H. inversion H as [|? ? Hc Ha]; subst.
    change (Split (String c (a ++ String sep rest)) sep = String c a :: Split rest sep).
    simpl. rewrite Hc, (IH Ha). done.
Qed.

Lemma Join_cons_char (c : ascii) (part : string) (parts : list string) (sep : string) :
  Join (String c part :: parts) sep = String c (Join (part :: parts) sep).
Proof. destruct parts; reflexivity. Qed.

(** Joining what [Split] returns gives the string back. *)
Lemma Join_Split (s : string) (sep : ascii) : Join (Split s sep) (String sep "") = s.
Proof.
  induction s as [|c s IH]; simpl; [done|].
  destruct (Ascii.eqb_spec c sep) as [->|Hne].
  - destruct (Split s sep) as [|part parts] eqn:Hs; [by destruct (Split_nonempty s sep)|].
    change (String sep (Join (part :: parts) (String sep "")) = String sep s). by rewrite IH.
  - destruct (Split s sep) as [|part parts] eqn:Hs; [by destruct (Split_nonempty s sep)|].
    rewrite Join_cons_char. by rewrite IH.
Qed.

Lemma valid_char_not_hyphen (c : ascii) :
  isValidAccessCodeChar c = true -> Ascii.eqb c "-" = false.
Proof.
  intros H. destruct (Ascii.eqb_spec c "-") as [->|]; [|done].
  vm_compute in H. discriminate.
Qed.

Lemma validPart_noSep (part : string) : validPart part -> noSep "-" part.
Proof.
  intros [_ H]. unfold noSep. apply Forall_forall. intros c Hc.
  apply valid_char_not_hyphen. rewrite forallb_forall in H. apply H.
  by apply list_elem_of_In.
Qed.

Lemma length_append (a b : string) :
  String.length (a ++ b) = (String.length a + String.length b)%nat.
Proof.
  induction a as [|c a IH]; [done|].
  change (S (String.length (a ++ b)) = S (String.length a + String.length b)). by rewrite IH.
Qed.

Lemma parts_accepted (p1 p2 p3 : string) :
  validPart p1 -> validPart p2 -> validPart p3 ->
  ValidateAccessCodeFormat (p1 ++ "-" ++ p2 ++ "-" ++ p3) = true.
Proof.
  intros H1 H2 H3. unfold ValidateAccessCodeFormat.
  change (p1 ++ "-" ++ p2 ++ "-" ++ p3) with (p1 ++ String "-" (p2 ++ String "-" p3)).
  rewrite (Split_append p1 _ "-" (validPart_noSep _ H1)).
  rewrite (Split_append p2 _ "-" (validPart_noSep _ H2)).
  rewrite (Split_noSep p3 "-" (validPart_noSep _ H3)).
  rewrite length_append. simpl String.length. rewrite length_append. simpl String.length.
  destruct H1 as [L1 V1], H2 as [L2 V2], H3 as [L3 V3].
  cbn [forallb length]. rewrite L1, L2, L3, V1, V2, V3. reflexivity.
Qed.

(** [ValidateAccessCodeFormat] accepts exactly the strings made of three
    groups of four characters of the code alphabet, separated by hyphens. *)
Theorem ValidateAccessCodeFormat_exact (code : string) :
  ValidateAccessCodeFormat code = true <->
  exists p1 p2 p3, code = p1 ++ "-" ++ p2 ++ "-" ++ p3 /\
                   validPart p1 /\ validPart p2 /\ validPart p3.
Proof.
  split.
  - unfold ValidateAccessCodeFormat. intros H.
    destruct (Nat.eqb (String.length code) 14); [|done]. simpl in H.
    pose proof (Join_Split code "-") as Hj.
    destruct (Split code "-") as [|p1 [|p2 [|p3 [|p4 parts]]]]; try done.
    simpl in H. rewrite !andb_true_iff in H.
    destruct H as ((L1 & V1) & (L2 & V2) & (L3 & V3) & _).
    apply Nat.eqb_eq in L1, L2, L3.
    exists p1, p2, p3. split; [|done]. symmetry. exact Hj.
  - intros (p1 & p2 & p3 & -> & H1 & H2 & H3). by apply parts_accepted.
Qed.

Lemma generated_char_valid (b : Byte.byte) :
  isValidAccessCodeChar (charsetAt (Byte.to_nat b mod String.length charset)) = true.
Proof. destruct b; reflexivity. Qed.

(** Every code [GenerateAccessCode] builds from twelve random bytes is 14
    characters long and passes [ValidateAccessCodeFormat]; only a failing
    random source makes it fail. *)
Theorem generated_code_is_valid (randomBytes : list Byte.byte) :
  length randomBytes = codeLength ->
  exists code, GenerateAccessCode (Some randomBytes) = Some code /\
               String.length code = 14%nat /\
               ValidateAccessCodeFormat code = true.
Proof.
  intros Hlen.
  do 12 (destruct randomBytes as [|? randomBytes]; [discriminate Hlen|]).
  destruct randomBytes; [|discriminate Hlen].
  eexists. split; [reflexivity|]. split.
  - reflexivity.
  - cbn [map take drop string_of_list_ascii].
    apply parts_accepted; (split; [reflexivity|]);
      cbn [list_ascii_of_string forallb]; rewrite !generated_char_valid; reflexivity.
Qed.

Lemma generated_code_is_valid_witness :
  exists code,
    GenerateAccessCode
      (Some [Byte.x00; Byte.x01; Byte.x1f; Byte.xff; Byte.x41; Byte.x42;
             Byte.x43; Byte.x44; Byte.x10; Byte.x11; Byte.x12; Byte.x13]) = Some code /\
    String.length code = 14%nat /\ ValidateAccessCodeFormat code = true.
Proof. apply generated_code_is_valid. reflexivity. Defined.

(** The mapping of random bytes to characters is not uniform: each of the
    first eight characters of the alphabet (A to H) is produced by 9 of the
    256 byte values, each of the other 23 characters by 8, and no byte
    produces a character outside the alphabet. *)
Theorem access_code_modulo_bias (c : ascii) :
  bytesYielding c =
    if existsb (Ascii.eqb c) (list_ascii_of_string "ABCDEFGH") then 9%nat
    else if isValidAccessCodeChar c then 8%nat else 0%nat.
Proof.
  destruct c as [[] [] [] [] [] [] [] []]; vm_compute; reflexivity.
Qed.

(** ** The middleware and the token checks (auth.go) *)

Lemma skipSet_lookup (cfg : Config) (p : string) :
  default false (skipSet cfg !! p) = true <-> p ∈ SkipPaths cfg.
Proof.
  unfold skipSet.
  enough (forall (m : gmap string bool),
    default false (fold_left (fun m p => <[p := true]> m) (SkipPaths cfg) m !! p) = true
    <-> p ∈ SkipPaths cfg \/ default false (m !! p) = true) as H.
  { rewrite H, lookup_empty. simpl. naive_solver. }
  induction (SkipPaths cfg) as [|q l IH]; intros m; simpl.
  - rewrite elem_of_nil. naive_solver.
  - rewrite IH, elem_of_cons. destruct (decide (q = p)) as [->|Hne].
    + rewrite lookup_insert_eq. simpl. naive_solver.
    + rewrite lookup_insert_ne by done. naive_solver.
Qed.

Lemma validateAudience_true (token : jwt.Token) (expectedAudience : string) :
  validateAudience token expectedAudience = true <->
  jwt.Claims token !! "aud" = Some (JString expectedAudience) \/
  exists auds, jwt.Claims token !! "aud" = Some (JArray auds) /\
               JString expectedAudience ∈ auds.
Proof.
  unfold validateAudience.
  destruct (jwt.Claims token !! "aud") as [[| | |aud|auds|]|]; try naive_solver.
  - rewrite String.eqb_eq. naive_solver.
  - rewrite existsb_exists. split.
    + intros (a & Hin & Ha). right. exists auds. split; [done|].
      destruct a; try done. apply String.eqb_eq in Ha as ->. by apply list_elem_of_In.
    + intros [?|(auds' & [= <-] & Hin)]; [done|].
      exists (JString expectedAudience). split; [by apply list_elem_of_In|apply String.eqb_refl].
Qed.

(** [validateAudience] accepts exactly an "aud" claim that is the expected
    string, or a list with the expected string among its elements; a missing
    claim, another type, or list elements that are not strings never match. *)
Theorem validateAudience_exact (token : jwt.Token) (expectedAudience : string) :
  (validateAudience token expectedAudience = true <->
   jwt.Claims token !! "aud" = Some (JString expectedAudience) \/
   exists auds, jwt.Claims token !! "aud" = Some (JArray auds) /\
                JString expectedAudience ∈ auds)
  /\ (jwt.Claims token !! "aud" = None -> validateAudience token expectedAudience = false).
Proof.
  split; [apply validateAudience_true|].
  intros H. unfold validateAudience. by rewrite H.
Qed.

Section MoreAuthProperties.

Variable DecodeString : string -> option (list Z).
Variable DecodeSegments : string -> option jwt.Segments.
Variable Verify : jwt.SigningMethod -> string -> string -> rsa.PublicKey -> bool.

Local Abbreviation AuthN' := (AuthN DecodeString DecodeSegments Verify).
Local Abbreviation ValidateToken' := (ValidateToken DecodeString DecodeSegments Verify).
Local Abbreviation parseToken' := (parseToken DecodeString DecodeSegments Verify).
Local Abbreviation GetKey' := (GetKey DecodeString).


(** A request for a route on the skip list is handed on untouched, without
    looking at any token and without touching the cache; the list is matched
    by exact equality with the route. A request for any other route is only
    handed on with claims bound to it. *)
Theorem AuthN_skip_list (cfg : Config) (c : Context) (w : World) :
  (FullPath c ∈ SkipPaths cfg -> AuthN' cfg c w = (Next c, w))
  /\ (FullPath c ∉ SkipPaths cfg ->
      forall c', (AuthN' cfg c w).1 = Next c' ->
        exists cl, c' = SetClaims c (Some cl) /\ GetClaims c' = Some cl).
Proof.
  split.
  - intros Hin. apply skipSet_lookup in Hin. unfold AuthN. by rewrite Hin.
  - intros Hnin c' H.
    assert (skipped cfg c = false) as Hs.
    { unfold skipped. destruct (default false (skipSet cfg !! FullPath c)) eqn:Hd; [|done].
      apply skipSet_lookup in Hd. done. }
    destruct (String.eqb_spec (extractToken c) "") as [He|Hne].
    { rewrite (AuthN_missing _ _ _ _ _ _ Hs He) in H. discriminate. }
    destruct (parseToken' (extractToken c) cfg w) as [[token|e] w'] eqn:Hp.
    + rewrite (AuthN_parsed _ _ _ _ _ _ _ _ Hs Hne Hp) in H. simpl in H.
      destruct (negb (jwt.Valid token)); [discriminate|].
      destruct (negb (String.eqb (Audience cfg) "") && negb (validateAudience token (Audience cfg)));
        [discriminate|].
      injection H as <-. eexists. split; [done|]. apply GetClaims_SetClaims.
    + rewrite (AuthN_parse_error _ _ _ _ _ _ _ _ Hs Hne Hp) in H. discriminate.
Qed.


(** ** [ValidateToken] *)

Lemma withCache_run {A} (j : JWKSCache) (m : M A) (w : World) :
  (withCache j m w).1
  = (m {| cache := j; clock := clock w; ticks := ticks w;
          endpoint := endpoint w; gets := gets w; trace := trace w |}).1
  /\ gets (withCache j m w).2
     = gets (m {| cache := j; clock := clock w; ticks := ticks w;
                  endpoint := endpoint w; gets := gets w; trace := trace w |}).2
  /\ cache (withCache j m w).2 = cache w.
Proof. unfold withCache. by destruct (m _). Qed.


(** The number of GETs after parsing: unchanged, or what the one call of
    [GetKey] left. *)
Lemma parseToken_gets (tokenStr : string) (cfg : Config) (w : World) :
  gets (parseToken' tokenStr cfg w).2 = gets w \/
  exists seg kid,
    DecodeSegments tokenStr = Some seg /\
    jwt.segHeader seg !! "alg" = Some (JString "RS256") /\
    jwt.segHeader seg !! "kid" = Some (JString kid) /\
    gets (parseToken' tokenStr cfg w).2 = gets (GetKey' kid w).2.
Proof.
  unfold parseToken, jwt.Parse.
  destruct (DecodeSegments tokenStr) as [seg|]; [|by left].
  destruct (jwt.segHeader seg !! "alg") as [[| | |alg| |]|] eqn:Ha; try by left.
  destruct (jwt.GetSigningMethod alg) as [m|] eqn:Hm; [|by left].
  destruct (existsb (String.eqb (jwt.Alg m)) ["RS256"]) eqn:Hv; [|by left].
  simpl in Hv. rewrite orb_false_r in Hv. apply String.eqb_eq in Hv.
  rewrite (GetSigningMethod_Alg _ _ Hm) in Hv. subst alg.
  vm_compute in Hm. injection Hm as <-.
  simpl. unfold bind, KeyFunc. simpl.
  destruct (jwt.segHeader seg !! "kid") as [[| | |kid| |]|] eqn:Hk; try by left.
  right. exists seg, kid. split_and!; try done.
  unfold bind. destruct (GetKey' kid w) as [[key|e] w1]; simpl; [|done].
  destruct (Verify _ _ _ key); simpl; [|done].
  unfold Now. simpl. by destruct (jwt.Validate _ _ _).
Qed.

Lemma GetKey_gets (kid : string) (w : World) :
  gets (GetKey' kid w).2 = gets w \/ gets (GetKey' kid w).2 = S (gets w).
Proof.
  destruct (GetKey_paths DecodeString kid w)
    as [(key & _ & _ & _ & Hg)|(w1 & Hp & _ & Hg1 & _)]; [by left|].
  rewrite Hp, <- Hg1.
  destruct (Z.lt_ge_cases (sinceLastFetch w1) (30 * Second)) as [H|H].
  - left. by destruct (fetchAndLookup_recent DecodeString kid w1 H) as (_ & ? & _).
  - right. by apply fetchAndLookup_fetches.
Qed.

(** Handling one request issues at most one GET to the key endpoint, and
    none at all for a skipped route, a missing token, a token that does not
    decode or one that declares another algorithm than RS256 or no key id. *)
Theorem AuthN_at_most_one_fetch (cfg : Config) (c : Context) (w : World) :
  (gets (AuthN' cfg c w).2 = gets w \/ gets (AuthN' cfg c w).2 = S (gets w))
  /\ (gets (AuthN' cfg c w).2 = S (gets w) ->
      skipped cfg c = false /\
      exists seg kid,
        DecodeSegments (extractToken c) = Some seg /\
        jwt.segHeader seg !! "alg" = Some (JString "RS256") /\
        jwt.segHeader seg !! "kid" = Some (JString kid)).
Proof.
  assert (gets (AuthN' cfg c w).2 = gets w \/
          skipped cfg c = false /\
          exists seg kid,
            DecodeSegments (extractToken c) = Some seg /\
            jwt.segHeader seg !! "alg" = Some (JString "RS256") /\
            jwt.segHeader seg !! "kid" = Some (JString kid) /\
            gets (AuthN' cfg c w).2 = gets (GetKey' kid w).2) as H.
  { destruct (skipped cfg c) eqn:Hs.
    { left. unfold skipped in Hs. unfold AuthN. by rewrite Hs. }
    destruct (String.eqb_spec (extractToken c) "") as [He|Hne].
    { left. by rewrite (AuthN_missing _ _ _ _ _ _ Hs He). }
    assert (gets (AuthN' cfg c w).2 = gets (parseToken' (extractToken c) cfg w).2) as ->.
    { destruct (parseToken' (extractToken c) cfg w) as [[token|e] w'] eqn:Hp.
      - by rewrite (AuthN_parsed _ _ _ _ _ _ _ _ Hs Hne Hp).
      - by rewrite (AuthN_parse_error _ _ _ _ _ _ _ _ Hs Hne Hp). }
    destruct (parseToken_gets (extractToken c) cfg w) as [?|(seg & kid & ? & ? & ? & ?)];
      [by left|].
    right. split; [done|]. exists seg, kid. done. }
  split.
  - destruct H as [?|(_ & seg & kid & _ & _ & _ & ->)]; [by left|]. apply GetKey_gets.
  - intros Hg. destruct H as [?|(? & seg & kid & ? & ? & ? & _)]; [lia|].
    split; [done|]. exists seg, kid. done.
Qed.

(** [ValidateToken] creates its cache anew on every call: any token that
    reaches the key lookup costs one GET to the key endpoint, whatever was
    fetched before, and the cache of the caller's middleware is not used or
    changed. (The clock is assumed to read at least 30 seconds after the
    zero time.) *)
Theorem ValidateToken_fetches_every_call
    (tokenStr : string) (cfg : Config) (w : World) seg kid :
  DecodeSegments tokenStr = Some seg ->
  jwt.segHeader seg !! "alg" = Some (JString "RS256") ->
  jwt.segHeader seg !! "kid" = Some (JString kid) ->
  30 * Second <= Sub (clock w (ticks w)) zeroTime ->
  gets (ValidateToken' tokenStr cfg w).2 = S (gets w)
  /\ cache (ValidateToken' tokenStr cfg w).2 = cache w.
Proof.
  intros Hd Ha Hk Hclock. unfold ValidateToken.
  match goal with |- context [withCache ?j ?m w] =>
    destruct (withCache_run j m w) as (_ & -> & ->) end.
  split; [|done]. fold (freshFor cfg w). unfold bind.
  assert (gets (parseToken' tokenStr cfg (freshFor cfg w)).2 = S (gets w)) as Hg.
  { destruct (parseToken_gets tokenStr cfg (freshFor cfg w))
      as [Hsame|(seg' & kid' & Hd' & _ & Hk' & ->)].
    - exfalso. revert Hsame. unfold parseToken, jwt.Parse. rewrite Hd, Ha. simpl.
      unfold bind, KeyFunc. simpl. rewrite Hk. unfold bind.
      rewrite (GetKey_absent DecodeString kid (freshFor cfg w)) by apply lookup_empty.
      pose proof (fetchAndLookup_fetches DecodeString kid
                    (emitted (EvGetKey kid) (freshFor cfg w)) Hclock) as Hf.
      destruct (fetchAndLookup DecodeString kid (emitted (EvGetKey kid) (freshFor cfg w)))
        as [[key|e] w1]; simpl in *; [|lia].
      destruct (Verify _ _ _ key); simpl; [|lia].
      unfold Now. simpl. destruct (jwt.Validate _ _ _); simpl; lia.
    - rewrite (GetKey_absent DecodeString kid' (freshFor cfg w)) by apply lookup_empty.
      by rewrite (fetchAndLookup_fetches DecodeString kid'
                    (emitted (EvGetKey kid') (freshFor cfg w)) Hclock). }
  destruct (parseToken' tokenStr cfg (freshFor cfg w)) as [[token|e] w'];
    simpl in *; [|done].
  by destruct (negb (jwt.Valid token)).
Qed.

(** A token that declares RS256 but has no string "kid" in its header is
    rejected with the generic 401 before any key lookup: the cache, the
    GET count and the trace are as before. *)
Theorem missing_kid_rejected_before_lookup
    (tokenStr : string) (cfg : Config) (w : World) seg :
  DecodeSegments tokenStr = Some seg ->
  jwt.segHeader seg !! "alg" = Some (JString "RS256") ->
  (forall kid, jwt.segHeader seg !! "kid" ≠ Some (JString kid)) ->
  parseToken' tokenStr cfg w = (inr (jwt.ErrKeyfunc MissingKid), w)
  /\ (forall c, skipped cfg c = false -> extractToken c = tokenStr -> tokenStr ≠ "" ->
        AuthN' cfg c w = (invalidToken, w)).
Proof.
  intros Hd Ha Hk.
  assert (parseToken' tokenStr cfg w = (inr (jwt.ErrKeyfunc MissingKid), w)) as Hp.
  { unfold parseToken, jwt.Parse. rewrite Hd, Ha. simpl. unfold bind, KeyFunc. simpl.
    destruct (jwt.segHeader seg !! "kid") as [[| | |kid| |]|] eqn:Hkid; try done.
    by destruct (Hk kid). }
  split; [exact Hp|].
  intros c Hs He Hne. subst tokenStr.
  by apply (AuthN_parse_error DecodeString DecodeSegments Verify cfg c w w _ Hs Hne Hp).
Qed.

End MoreAuthProperties.

(** ** The key cache *)

Section MoreCacheProperties.

Variable DecodeString : string -> option (list Z).

Local Abbreviation GetKey' := (GetKey DecodeString).

Lemma GetKey_ok_cached (kid : string) (w : World) key :
  (GetKey' kid w).1 = inl key -> keys (cache (GetKey' kid w).2) !! kid = Some key.
Proof.
  intros H.
  destruct (GetKey_paths DecodeString kid w)
    as [(key' & Hr & Hk & Hc & _)|(w1 & Hp & _)].
  - rewrite Hc. congruence.
  - rewrite Hp in H |- *. rewrite fetchAndLookup_unfold in H |- *.
    destruct ((refresh DecodeString w1).1); [done|]. simpl in *.
    destruct (keys (cache (refresh DecodeString w1).2) !! kid); congruence.
Qed.

(** A key that [GetKey] returned is in the cache afterwards, and asking for
    it again while the cache is younger than its TTL returns the same key
    from the cache: no GET is issued and the cache is not modified. *)
Theorem GetKey_hit_after_success (kid : string) (w w1 : World) key :
  GetKey' kid w = (inl key, w1) ->
  sinceLastFetch w1 < cacheTTL (cache w1) ->
  keys (cache w1) !! kid = Some key
  /\ (GetKey' kid w1).1 = inl key
  /\ gets (GetKey' kid w1).2 = gets w1
  /\ cache (GetKey' kid w1).2 = cache w1.
Proof.
  intros Hg Hfresh.
  assert (keys (cache w1) !! kid = Some key) as Hk.
  { pose proof (GetKey_ok_cached kid w key) as H. rewrite Hg in H. by apply H. }
  split; [done|].
  destruct (GetKey_paths DecodeString kid w1)
    as [(key' & Hr & Hk' & Hc & Hgets)|(w2 & _ & _ & _ & _ & _ & [[_ Hn]|[_ Hstale]])].
  - rewrite Hr. split_and!; [congruence|done..].
  - congruence.
  - lia.
Qed.

(** A cached key older than the TTL is not served while the endpoint is
    down: [GetKey] returns the refresh failure, although the key is still
    in the cache afterwards. *)
Theorem stale_key_not_served_on_outage (kid : string) (w : World) key e :
  keys (cache w) !! kid = Some key ->
  cacheTTL (cache w) <= sinceLastFetch w ->
  30 * Second <= Sub (clock w (S (ticks w))) (lastFetch (cache w)) ->
  fetchError (endpoint w (gets w)) = Some e ->
  (GetKey' kid w).1 = inr (RefreshFailed e)
  /\ keys (cache (GetKey' kid w).2) !! kid = Some key.
Proof.
  intros Hk Hstale H30 He.
  destruct (GetKey_paths DecodeString kid w)
    as [(key' & Hr & _ & Hc & _)|(w1 & Hp & Hc & Hg & Hep & Hclk & [[_ Hn]|[Ht _]])].
  - exfalso. revert Hr. unfold GetKey, bind, getCache, emit, Since, Now, ret. simpl.
    rewrite Hk. simpl.
    unfold sinceLastFetch in Hstale.
    destruct (Z.ltb_spec (Sub (clock w (ticks w)) (lastFetch (cache w))) (cacheTTL (cache w)));
      [lia|].
    intros Hr. rewrite fetchAndLookup_unfold in Hr.
    match type of Hr with context [refresh DecodeString ?w1] =>
      assert (30 * Second <= sinceLastFetch w1) as H1 by exact H30;
      destruct (refresh_fetches DecodeString w1 H1) as (Hre & _) end.
    simpl in Hre. rewrite Hre, He in Hr. done.
  - congruence.
  - assert (30 * Second <= sinceLastFetch w1) as H1.
    { unfold sinceLastFetch. by rewrite Hclk, Ht, Hc. }
    destruct (refresh_fetches DecodeString w1 H1) as (Hre & _ & _ & Hkeep & _).
    rewrite Hep, Hg in Hre, Hkeep.
    rewrite Hp, fetchAndLookup_unfold, Hre, He. simpl.
    split; [done|]. by rewrite (Hkeep e He), Hc.
Qed.

Lemma buildKeys_fold_dom (ks : list jwksKey) (m : gmap string rsa.PublicKey) (kid : string) :
  kid ∈ dom (fold_left
      (fun newKeys k =>
         if negb (String.eqb (jwk.Kty k) "RSA") || negb (String.eqb (jwk.Use k) "sig")
         then newKeys
         else match parseRSAPublicKey DecodeString (jwk.N k) (jwk.E k) with
              | None => newKeys
              | Some pubKey => <[jwk.Kid k := pubKey]> newKeys
              end) ks m)
  <-> kid ∈ dom m \/ exists k, k ∈ ks /\ jwk.Kid k = kid /\ usableKey DecodeString k.
Proof.
  revert m. induction ks as [|k ks IH]; intros m; simpl.
  - split; [by left|]. intros [?|(k & Hin & _)]; [done|]. by apply elem_of_nil in Hin.
  - rewrite IH. unfold usableKey.
    destruct (String.eqb_spec (jwk.Kty k) "RSA") as [Hk|Hk]; simpl.
    2: { split; [intros [?|(k' & ? & ?)]; [by left|right; exists k'; by rewrite elem_of_cons; eauto]|].
         intros [?|(k' & Hin & Hid & Hu)]; [by left|].
         apply elem_of_cons in Hin as [->|Hin]; [by destruct Hu|]. right. eauto. }
    destruct (String.eqb_spec (jwk.Use k) "sig") as [Hu|Hu]; simpl.
    2: { split; [intros [?|(k' & ? & ?)]; [by left|right; exists k'; by rewrite elem_of_cons; eauto]|].
         intros [?|(k' & Hin & Hid & Hu')]; [by left|].
         apply elem_of_cons in Hin as [->|Hin]; [by destruct Hu' as (_ & ? & _)|]. right. eauto. }
    destruct (parseRSAPublicKey DecodeString (jwk.N k) (jwk.E k)) as [pub|] eqn:Hp.
    + rewrite dom_insert_L, elem_of_union, elem_of_singleton. split.
      * intros [[->|?]|(k' & ? & ?)]; [|by left|].
        -- right. exists k. rewrite elem_of_cons, Hp. split_and!; eauto.
        -- right. exists k'. rewrite elem_of_cons. eauto.
      * intros [?|(k' & Hin & Hid & Hu')]; [by left; right|].
        apply elem_of_cons in Hin as [->|Hin]; [by left; left|]. right. eauto.
    + split; [intros [?|(k' & ? & ?)]; [by left|right; exists k'; by rewrite elem_of_cons; eauto]|].
      intros [?|(k' & Hin & Hid & Hu')]; [by left|].
      apply elem_of_cons in Hin as [->|Hin].
      * destruct Hu' as (_ & _ & [? Hs]). congruence.
      * right. eauto.
Qed.

(** The mapping a refresh installs has a key id exactly when the fetched
    key set has an entry with that id, key type "RSA", use "sig" and a
    modulus and exponent that decode; entries of another type or use, or
    with undecodable numbers, are dropped without failing the refresh. *)
Theorem buildKeys_keeps_usable_keys (ks : list jwksKey) (kid : string) :
  kid ∈ dom (buildKeys DecodeString ks) <->
  exists k, k ∈ ks /\ jwk.Kid k = kid /\ usableKey DecodeString k.
Proof.
  unfold buildKeys. rewrite buildKeys_fold_dom, dom_empty_L. set_solver.
Qed.

Lemma buildKeys_fold_keeps (ks : list jwksKey) (m : gmap string rsa.PublicKey)
    (kid : string) pub :
  m !! kid = Some pub ->
  (forall k, k ∈ ks -> jwk.Kid k = kid -> ~ usableKey DecodeString k) ->
  fold_left
    (fun newKeys k =>
       if negb (String.eqb (jwk.Kty k) "RSA") || negb (String.eqb (jwk.Use k) "sig")
       then newKeys
       else match parseRSAPublicKey DecodeString (jwk.N k) (jwk.E k) with
            | None => newKeys
            | Some pubKey => <[jwk.Kid k := pubKey]> newKeys
            end) ks m !! kid = Some pub.
Proof.
  revert m. induction ks as [|k ks IH]; intros m Hm Hno; simpl; [done|].
  apply IH; [|intros k' Hin; apply Hno; by right].
  destruct (String.eqb_spec (jwk.Kty k) "RSA") as [Hk|Hk]; simpl; [|done].
  destruct (String.eqb_spec (jwk.Use k) "sig") as [Hu|Hu]; simpl; [|done].
  destruct (parseRSAPublicKey DecodeString (jwk.N k) (jwk.E k)) as [pub'|] eqn:Hp; [|done].
  destruct (decide (jwk.Kid k = kid)) as [He|Hne].
  - exfalso. apply (Hno k); [by left|done|]. unfold usableKey. rewrite Hp. eauto.
  - by rewrite lookup_insert_ne.
Qed.

(** When several usable entries of a key set share a key id, the last of
    them wins: the key stored for an id is that of the entry after which no
    usable entry with the same id follows. *)
Theorem buildKeys_last_usable_entry_wins (ks1 ks2 : list jwksKey) (k : jwksKey) pub :
  jwk.Kty k = "RSA" -> jwk.Use k = "sig" ->
  parseRSAPublicKey DecodeString (jwk.N k) (jwk.E k) = Some pub ->
  (forall k', k' ∈ ks2 -> jwk.Kid k' = jwk.Kid k -> ~ usableKey DecodeString k') ->
  buildKeys DecodeString (ks1 ++ k :: ks2) !! jwk.Kid k = Some pub.
Proof.
  intros Hk Hu Hp Hno. unfold buildKeys. rewrite fold_left_app. simpl.
  rewrite Hk, Hu, Hp. simpl. apply buildKeys_fold_keeps; [|done].
  apply lookup_insert_eq.
Qed.

Lemma wrapInt_small (x : Z) : - 2 ^ 63 <= x < 2 ^ 63 -> wrapInt x = x.
Proof. intros H. unfold wrapInt. rewrite Z.mod_small; lia. Qed.

Lemma exponent_fold_small (eBytes : list Z) (acc bound : Z) :
  Forall (fun b => 0 <= b < 256) eBytes ->
  0 <= acc < bound ->
  bound * 256 ^ Z.of_nat (length eBytes) <= 2 ^ 56 ->
  fold_left (fun e b => wrapInt (wrapInt (Z.shiftl e 8) + b)) eBytes acc
  = fold_left (fun acc b => acc * 256 + b) eBytes acc.
Proof.
  revert acc bound. induction eBytes as [|b rest IH]; intros acc bound Hb Hacc Hbound; [done|].
  inversion Hb as [|? ? Hb0 Hrest]; subst. simpl fold_left.
  cbn [length] in Hbound. rewrite Nat2Z.inj_succ, Z.pow_succ_r in Hbound by lia.
  assert (0 < 256 ^ Z.of_nat (length rest)) by (apply Z.pow_pos_nonneg; lia).
  assert (acc * 256 + b < bound * 256) by lia.
  assert (bound * 256 <= 2 ^ 56) by nia.
  rewrite Z.shiftl_mul_pow2 by lia. change (2 ^ 8) with 256.
  assert (2 ^ 56 < 2 ^ 63) by (apply Z.pow_lt_mono_r; lia).
  rewrite (wrapInt_small (acc * 256)) by lia.
  rewrite (wrapInt_small (acc * 256 + b)) by lia.
  apply (IH _ (bound * 256)); [done|lia|lia].
Qed.

(** [parseRSAPublicKey] fails exactly when the modulus or the exponent is
    not valid base64url. Otherwise the modulus is the big-endian value of
    its bytes, and so is the exponent as long as it has at most seven bytes
    (the machine integer it is accumulated in does not overflow). *)
Theorem parseRSAPublicKey_big_endian (nStr eStr : string) :
  (parseRSAPublicKey DecodeString nStr eStr = None <->
   DecodeString nStr = None \/ DecodeString eStr = None)
  /\ (forall nBytes eBytes,
        DecodeString nStr = Some nBytes -> DecodeString eStr = Some eBytes ->
        Forall (fun b => 0 <= b < 256) eBytes -> (length eBytes <= 7)%nat ->
        parseRSAPublicKey DecodeString nStr eStr
        = Some {| rsa.N := SetBytes nBytes; rsa.E := SetBytes eBytes |}).
Proof.
  unfold parseRSAPublicKey. split.
  - destruct (DecodeString nStr), (DecodeString eStr); naive_solver.
  - intros nBytes eBytes -> -> Hb Hlen. do 2 f_equal. unfold SetBytes.
    apply (exponent_fold_small eBytes 0 1 Hb); [lia|].
    rewrite Z.mul_1_l. change (2 ^ 56) with (256 ^ 7).
    apply Z.pow_le_mono_r; lia.
Qed.

(** What each outcome of [GetKey] means: a returned key is the one now
    cached under the key id; "not found" means the cache, after any
    refresh, has no such key id; a refresh failure means that the one GET
    issued by this call failed and the cache is as it was. *)
Theorem GetKey_outcomes (kid : string) (w : World) :
  match (GetKey' kid w).1 with
  | inl key => keys (cache (GetKey' kid w).2) !! kid = Some key
  | inr (KeyNotFound kid') =>
      kid' = kid /\ keys (cache (GetKey' kid w).2) !! kid = None
  | inr (RefreshFailed e) =>
      fetchError (endpoint w (gets w)) = Some e /\
      cache (GetKey' kid w).2 = cache w /\ gets (GetKey' kid w).2 = S (gets w)
  end.
Proof.
  destruct (GetKey_paths DecodeString kid w)
    as [(key & Hr & Hk & Hc & _)|(w1 & Hp & Hc & Hg & Hep & _)].
  - rewrite Hr, Hc. done.
  - rewrite Hp, fetchAndLookup_unfold.
    destruct ((refresh DecodeString w1).1) as [e|] eqn:Hre; simpl.
    + destruct (refresh_error_keeps_cache DecodeString w1 e Hre) as [Hkeep Hfe].
      rewrite Hep, Hg in Hfe. split_and!; [done|congruence|].
      destruct (Z.lt_ge_cases (sinceLastFetch w1) (30 * Second)) as [H|H].
      * destruct (refresh_recent DecodeString w1 H) as (Hn & _). congruence.
      * destruct (refresh_fetches DecodeString w1 H) as (_ & Hgets & _). congruence.
    + by destruct (keys (cache (refresh DecodeString w1).2) !! kid).
Qed.

End MoreCacheProperties.

(** ** Claims bound to a request (claims.go) and the role middleware *)

(** What [SetClaims] stores is what [GetClaims] returns; a second
    [SetClaims] replaces the first; nothing else of the request changes, so
    the token extracted from it is the same. *)
Theorem SetClaims_GetClaims_round_trip (c : Context) (p q : option Claims) :
  GetClaims (SetClaims c p) = p
  /\ SetClaims (SetClaims c p) q = SetClaims c q
  /\ (forall k, k ≠ claimsKey -> Keys (SetClaims c p) !! k = Keys c !! k)
  /\ extractToken (SetClaims c p) = extractToken c
  /\ FullPath (SetClaims c p) = FullPath c.
Proof.
  split_and!.
  - apply GetClaims_SetClaims.
  - unfold SetClaims. simpl. by rewrite insert_insert_eq.
  - intros k Hk. unfold SetClaims. simpl. by rewrite lookup_insert_ne.
  - reflexivity.
  - reflexivity.
Qed.

(** A request without claims (nothing stored under the claims key, a value
    of another type, or a nil pointer) reads as an empty user, organization,
    domain and email, has no role, and is refused with 403 by [RequireTenant]
    and by [RequireRole] for every list of roles. *)
Theorem request_without_claims_is_denied (c : Context) :
  (GetClaims c = None <->
     Keys c !! claimsKey = None \/
     (exists v, Keys c !! claimsKey = Some (VOther v)) \/
     Keys c !! claimsKey = Some (VClaims None))
  /\ (GetClaims c = None ->
      UserID c = "" /\ OrgID c = "" /\ OrgDomain c = "" /\ Email c = ""
      /\ (forall role, HasRole c role = false)
      /\ RequireTenant c = AbortWithStatusJSON 403 tenantMissing
      /\ (forall roles,
            RequireRole roles c
            = AbortWithStatusJSON 403
                ("insufficient permissions — requires one of: " ++ Join roles ", "))).
Proof.
  split.
  - unfold GetClaims. destruct (Keys c !! claimsKey) as [[[cl|]|v]|]; naive_solver.
  - intros H.
    assert (forall role, HasRole c role = false) as Hr.
    { intros role. unfold HasRole. by rewrite H. }
    unfold UserID, OrgID, OrgDomain, Email, RequireTenant, OrgID. rewrite H.
    split_and!; try done.
    intros roles. unfold RequireRole.
    assert (HasAnyRole c roles = false) as ->; [|done].
    induction roles as [|r roles IH]; simpl; [done|]. by rewrite Hr.
Qed.

Lemma request_without_claims_is_denied_witness :
  GetClaims demoContext = None /\
  RequireRole ["admin"] demoContext
  = AbortWithStatusJSON 403 "insufficient permissions — requires one of: admin".
Proof.
  split; [reflexivity|].
  apply (request_without_claims_is_denied demoContext). reflexivity.
Defined.

(** [HasAnyRole] for any number of role names: true exactly when one of
    the names is a key of the bound claims' roles. It is the disjunction of
    [HasRole] over the names, so it distributes over concatenation, and
    adding names never turns an allowed request into a refused one. *)
Theorem HasAnyRole_any_list (c : Context) (rs rs' : list string) :
  (HasAnyRole c rs = true <->
     exists cl roles r, GetClaims c = Some cl /\ models.Roles cl = Some roles /\
                        r ∈ rs /\ r ∈ dom roles)
  /\ HasAnyRole c (rs ++ rs') = HasAnyRole c rs || HasAnyRole c rs'
  /\ (HasAnyRole c rs = true -> HasAnyRole c (rs' ++ rs) = true).
Proof.
  assert (forall l1 l2, HasAnyRole c (l1 ++ l2) = HasAnyRole c l1 || HasAnyRole c l2) as Happ.
  { intros l1 l2. induction l1 as [|r l1 IH]; simpl; [done|].
    destruct (HasRole c r); [done|]. exact IH. }
  split_and!.
  - rewrite HasAnyRole_true. split.
    + intros (r & Hin & H). apply HasRole_true in H as (cl & roles & ? & ? & ?).
      exists cl, roles, r. done.
    + intros (cl & roles & r & ? & ? & ? & ?). exists r. split; [done|].
      apply HasRole_true. eauto.
  - apply Happ.
  - intros H. rewrite Happ, H. apply orb_true_r.
Qed.

(** [RequireRole] hands the request on, unchanged, exactly when the bound
    claims have one of the listed roles; every refusal is a 403 whose
    message lists the required roles separated by ", ". *)
Theorem RequireRole_decision (roles : list string) (c : Context) :
  (RequireRole roles c = Next c <->
     exists cl m r, GetClaims c = Some cl /\ models.Roles cl = Some m /\
                    r ∈ roles /\ r ∈ dom m)
  /\ (forall c', RequireRole roles c = Next c' -> c' = c)
  /\ (forall status msg, RequireRole roles c = AbortWithStatusJSON status msg ->
        status = 403 /\
        msg = "insufficient permissions — requires one of: " ++ Join roles ", ").
Proof.
  unfold RequireRole. destruct (HasAnyRole c roles) eqn:H.
  - split_and!; [|by intros c' [= <-]|done].
    split; [intros _|done].
    apply HasAnyRole_true in H as (r & Hin & Hr).
    apply HasRole_true in Hr as (cl & m & ? & ? & ?). exists cl, m, r. done.
  - split_and!; [|done|by intros status msg [= <- <-]].
    split; [done|]. intros (cl & m & r & ? & ? & ? & ?).
    assert (HasAnyRole c roles = true); [|congruence].
    apply HasAnyRole_true. exists r. split; [done|]. apply HasRole_true. eauto.
Qed.

(** What the claims [AuthN] binds authorize: a role is held exactly when
    the payload's project-roles claim is a JSON object with that key (a
    list of names or any other value grants nothing), and [RequireTenant]
    passes exactly when the organization-id claim is a non-empty string. *)
Theorem bound_claims_authorize (c : Context) (payload : gmap string JSON) :
  let c' := SetClaims c (Some (buildClaims payload)) in
  (forall r, HasRole c' r = true <->
     exists roles, payload !! "urn:zitadel:iam:org:project:roles" = Some (JObject roles) /\
                   r ∈ dom roles)
  /\ (RequireTenant c' = Next c' <->
      exists org, payload !! "urn:zitadel:iam:org:id" = Some (JString org) /\ org ≠ "")
  /\ UserID c' = getStringClaim payload "sub"
  /\ Email c' = getStringClaim payload "email".
Proof.
  intros c'. split_and!.
  - intros r. rewrite HasRole_true. unfold c'. rewrite GetClaims_SetClaims. split.
    + intros (cl & roles & [= <-] & Hr & Hd). simpl in Hr.
      destruct (payload !! "urn:zitadel:iam:org:project:roles") as [[| | | | |m]|]; try done.
      injection Hr as ->. eauto.
    + intros (roles & Hp & Hd). eexists _, roles. split; [done|]. simpl. by rewrite Hp.
  - unfold RequireTenant, OrgID, c'. rewrite GetClaims_SetClaims. simpl.
    unfold getStringClaim.
    destruct (payload !! "urn:zitadel:iam:org:id") as [[| | |org| |]|]; simpl;
      try (split; [done|by intros (? & ? & ?)]).
    destruct (String.eqb_spec org "") as [->|Hne].
    + split; [done|]. intros (? & [= <-] & ?). done.
    + split; [|done]. intros _. eauto.
  - unfold UserID, c'. by rewrite GetClaims_SetClaims.
  - unfold Email, c'. by rewrite GetClaims_SetClaims.
Qed.

(** ** Concurrent callers: the lock discipline *)

Section LockDiscipline.

Import Concurrent.

Variable DecodeString : string -> option (list Z).









End LockDiscipline.

(** ** The further properties on the sample provider *)

Lemma AuthN_skip_list_witness :
  FullPath healthRequest ∈ SkipPaths demoCfg /\
  AuthN demoDecodeString demoDecodeSegments demoVerify demoCfg healthRequest demoWorld
  = (Next healthRequest, demoWorld).
Proof.
  assert (FullPath healthRequest ∈ SkipPaths demoCfg) as Hin by apply list_elem_of_here.
  split; [exact Hin|].
  apply (AuthN_skip_list demoDecodeString demoDecodeSegments demoVerify
           demoCfg healthRequest demoWorld).
  exact Hin.
Defined.



Lemma ValidateToken_fetches_every_call_witness :
  30 * Second <= Sub (clock freshWorld (ticks freshWorld)) zeroTime /\
  gets (ValidateToken demoDecodeString demoDecodeSegments demoVerify
          "token-valid" demoCfg freshWorld).2 = S (gets freshWorld).
Proof.
  assert (30 * Second <= Sub (clock freshWorld (ticks freshWorld)) zeroTime) as Hc
    by (vm_compute; discriminate).
  split; [exact Hc|].
  apply (ValidateToken_fetches_every_call demoDecodeString demoDecodeSegments demoVerify
           "token-valid" demoCfg freshWorld (demoSegments "RS256" "proj1" 1900003600) "k1");
    [reflexivity | reflexivity | reflexivity | exact Hc].
Defined.

Lemma GetKey_hit_after_success_witness :
  (GetKey demoDecodeString "k1" demoWorld).1 = inl demoKey /\
  gets (GetKey demoDecodeString "k1" (GetKey demoDecodeString "k1" demoWorld).2).2
  = gets (GetKey demoDecodeString "k1" demoWorld).2.
Proof.
  split; [vm_compute; reflexivity|].
  apply (GetKey_hit_after_success demoDecodeString "k1" demoWorld
           (GetKey demoDecodeString "k1" demoWorld).2 demoKey).
  - vm_compute. reflexivity.
  - vm_compute. reflexivity.
Defined.

Lemma stale_key_not_served_on_outage_witness :
  keys (cache outageWorld) !! "k1" = Some demoKey /\
  (GetKey demoDecodeString "k1" outageWorld).1 = inr (RefreshFailed FetchFailed) /\
  keys (cache (GetKey demoDecodeString "k1" outageWorld).2) !! "k1" = Some demoKey.
Proof.
  split; [reflexivity|].
  apply (stale_key_not_served_on_outage demoDecodeString "k1" outageWorld demoKey FetchFailed).
  - reflexivity.
  - vm_compute. discriminate.
  - vm_compute. discriminate.
  - reflexivity.
Defined.

Lemma buildKeys_last_usable_entry_wins_witness :
  buildKeys demoDecodeString
    ([{| jwk.Kty := "RSA"; jwk.Kid := "k1"; jwk.Use := "sig"; jwk.Alg := "RS256";
         jwk.N := "AQAB"; jwk.E := "AQAB" |}] ++
     demoJWK ::
     [{| jwk.Kty := "EC"; jwk.Kid := "k1"; jwk.Use := "sig"; jwk.Alg := "ES256";
         jwk.N := "uw"; jwk.E := "AQAB" |}]) !! jwk.Kid demoJWK
  = Some demoKey.
Proof.
  apply (buildKeys_last_usable_entry_wins demoDecodeString); [reflexivity..|].
  intros k' Hin _ (Hk & _). apply list_elem_of_singleton in Hin. subst k'. discriminate Hk.
Defined.

Lemma parseRSAPublicKey_big_endian_witness :
  parseRSAPublicKey demoDecodeString "uw" "AQAB"
  = Some {| rsa.N := SetBytes [187]; rsa.E := SetBytes [1; 0; 1] |}.
Proof.
  apply (parseRSAPublicKey_big_endian demoDecodeString "uw" "AQAB").
  - reflexivity.
  - reflexivity.
  - repeat constructor; lia.
  - simpl. lia.
Defined.




Lemma missing_kid_rejected_before_lookup_witness :
  noKidDecodeSegments "token-no-kid" <> None /\
  AuthN demoDecodeString noKidDecodeSegments demoVerify demoCfg
    (bearerRequest "token-no-kid") demoWorld
  = (invalidToken, demoWorld).
Proof.
  split; [discriminate|].
  eapply (missing_kid_rejected_before_lookup demoDecodeString noKidDecodeSegments demoVerify
            "token-no-kid" demoCfg demoWorld).
  - reflexivity.
  - reflexivity.
  - intros kid. vm_compute. discriminate.
  - reflexivity.
  - reflexivity.
  - discriminate.
Defined.
